(** * puebi: a shallow embedding of [puebi/puebi.go]

    The Go package normalises Indonesian text towards PUEBI.  Its core is
    [decapitalizeMidSentence], which walks the text sentence by sentence,
    cuts each sentence into maximal runs of letters and lowers the words
    that look wrongly capitalised.  Around it sits a pipeline of regular
    expression rewrites ([SanitizeToPUEBI]).

    Strings are modelled at the level the code works on: [[]rune(s)], a
    list of code points.  Indexes are [nat]; a rune is a [Z] as Go's
    [int32]. *)

From Stdlib Require Import ZArith Ascii String Lia.
From stdpp Require Import base list gmap strings.

Local Open Scope Z_scope.
Local Open Scope nat_scope.

Abbreviation rune := Z.

(** A Go string literal made of ASCII characters only, as its runes. *)
Definition runes (s : string) : list rune :=
  map (fun a => Z.of_N (N_of_ascii a)) (list_ascii_of_string s).

(** Go's [l[a:b]]. *)
Definition slice {A} (l : list A) (a b : nat) : list A := take (b - a) (drop a l).

(** * The [unicode] package

    Go's [unicode.IsLetter], [IsUpper], [IsLower], [IsSpace], [ToUpper] and
    [ToLower] answer for code points below 0x80 from a fixed table (their
    fast path) and for the others from the range tables of the Unicode
    database.  The first part is written out; the range tables are not part
    of the repository and are a parameter of the development. *)

Record UnicodeExt := {
  extLetter : rune -> bool;
  extUpper : rune -> bool;
  extLower : rune -> bool;
  extSpace : rune -> bool;
  extToUpper : rune -> rune;
  extToLower : rune -> rune
}.

Definition isASCII (r : rune) : bool := ((0 <=? r) && (r <? 128))%Z.
Definition inRange (lo hi r : rune) : bool := ((lo <=? r) && (r <=? hi))%Z.

Definition asciiUpper (r : rune) : bool := inRange 65 90 r.
Definition asciiLower (r : rune) : bool := inRange 97 122 r.
Definition asciiLetter (r : rune) : bool := asciiUpper r || asciiLower r.
Definition asciiSpace (r : rune) : bool := inRange 9 13 r || (r =? 32)%Z.
Definition asciiToUpper (r : rune) : rune := if asciiLower r then (r - 32)%Z else r.
Definition asciiToLower (r : rune) : rune := if asciiUpper r then (r + 32)%Z else r.

(** The tables restricted to ASCII: nothing above 0x7F is a letter or a
    space, and case mapping is the identity there.  Used to run examples. *)
Definition asciiOnly : UnicodeExt := {|
  extLetter := fun _ => false;
  extUpper := fun _ => false;
  extLower := fun _ => false;
  extSpace := fun _ => false;
  extToUpper := fun r => r;
  extToLower := fun r => r
|}.

(** * The [regexp] package

    Go's [regexp] finds the leftmost match and, among the matches that start
    there, the one a backtracking search finds first.  The matcher below is
    that search, written with a continuation.  A pattern is given by its
    syntax tree; [x+] is [x x*], [x?] is [x|()], [x{3,}] is [x x x x*].
    Repetition is only needed for single-rune classes. *)

Module Regexp.

Inductive regex :=
| Empty
| Char (p : rune -> bool)
| Seq (a b : regex)
| Alt (a b : regex)
| Star (p : rune -> bool)
| Group (n : nat) (a : regex)
| Begin
| WordBoundary.

(** The state of a match attempt: the rune before the position (none at the
    start of the text), the text from the position on, the position, and
    the text captured by each group so far. *)
Record mstate := {
  m_prev : option rune;
  m_rest : list rune;
  m_pos : nat;
  m_caps : list (nat * list rune)
}.

(** [\w], [\d] and [\s] are ASCII classes in Go. *)
Definition isWordChar (r : rune) : bool :=
  inRange 48 57 r || inRange 65 90 r || inRange 97 122 r || (r =? 95)%Z.
Definition isDigit (r : rune) : bool := inRange 48 57 r.
Definition isWS (r : rune) : bool :=
  ((r =? 9) || (r =? 10) || (r =? 12) || (r =? 13) || (r =? 32))%Z.

Definition oneOf (l : list rune) (r : rune) : bool := existsb (Z.eqb r) l.
Definition noneOf (l : list rune) (r : rune) : bool := negb (oneOf l r).
Definition isRune (c : rune) (r : rune) : bool := (r =? c)%Z.

Definition atWordBoundary (st : mstate) : bool :=
  xorb (from_option isWordChar false (m_prev st))
       (from_option isWordChar false (head (m_rest st))).

Fixpoint starLoop (p : rune -> bool) (k : mstate -> option mstate)
    (caps : list (nat * list rune)) (rest : list rune) (prev : option rune)
    (pos : nat) : option mstate :=
  let here := {| m_prev := prev; m_rest := rest; m_pos := pos; m_caps := caps |} in
  match rest with
  | c :: rest' =>
      if p c then
        match starLoop p k caps rest' (Some c) (S pos) with
        | Some r => Some r
        | None => k here
        end
      else k here
  | [] => k here
  end.

Fixpoint rmatch (re : regex) (st : mstate) (k : mstate -> option mstate)
  : option mstate :=
  match re with
  | Empty => k st
  | Char p =>
      match m_rest st with
      | c :: rest =>
          if p c then
            k {| m_prev := Some c; m_rest := rest; m_pos := S (m_pos st);
                 m_caps := m_caps st |}
          else None
      | [] => None
      end
  | Seq a b => rmatch a st (fun st' => rmatch b st' k)
  | Alt a b =>
      match rmatch a st k with
      | Some r => Some r
      | None => rmatch b st k
      end
  | Star p => starLoop p k (m_caps st) (m_rest st) (m_prev st) (m_pos st)
  | Group n a =>
      rmatch a st (fun st' =>
        k {| m_prev := m_prev st'; m_rest := m_rest st'; m_pos := m_pos st';
             m_caps := (n, take (m_pos st' - m_pos st) (m_rest st)) :: m_caps st' |})
  | Begin => if m_pos st =? 0 then k st else None
  | WordBoundary => if atWordBoundary st then k st else None
  end.

(** The text of group [n] of a match; a group that took no part is empty. *)
Fixpoint group (caps : list (nat * list rune)) (n : nat) : list rune :=
  match caps with
  | [] => []
  | (m, t) :: caps' => if m =? n then t else group caps' n
  end.

(** [ReplaceAllStringFunc] and [ReplaceAllString]: the text is scanned from
    the left; at a match the replacement is written and the scan goes on
    after the match (its runes are skipped), elsewhere the rune is copied.
    [repl] gets the matched text and the groups.  Every pattern of the
    package consumes at least one rune; an empty match is treated as no
    match. *)
Fixpoint replaceLoop (re : regex) (repl : list rune -> (nat -> list rune) -> list rune)
    (skip : nat) (prev : option rune) (pos : nat) (rest : list rune) : list rune :=
  match rest with
  | [] => []
  | c :: rest' =>
      match skip with
      | S skip' => replaceLoop re repl skip' (Some c) (S pos) rest'
      | 0 =>
          match rmatch re {| m_prev := prev; m_rest := rest; m_pos := pos; m_caps := [] |}
                  Some with
          | Some st' =>
              match m_pos st' - pos with
              | 0 => c :: replaceLoop re repl 0 (Some c) (S pos) rest'
              | S len =>
                  repl (take (S len) rest) (group (m_caps st'))
                    ++ replaceLoop re repl len (Some c) (S pos) rest'
              end
          | None => c :: replaceLoop re repl 0 (Some c) (S pos) rest'
          end
      end
  end.

Definition ReplaceAllStringFunc (re : regex) (src : list rune)
    (f : list rune -> list rune) : list rune :=
  replaceLoop re (fun m _ => f m) 0 None 0 src.

(** A replacement template: literal text and [$n]. *)
Inductive piece := Lit (t : list rune) | Ref (n : nat).

Definition expand (tmpl : list piece) (g : nat -> list rune) : list rune :=
  flat_map (fun p => match p with Lit t => t | Ref n => g n end) tmpl.

Definition ReplaceAllString (re : regex) (src : list rune) (tmpl : list piece)
  : list rune :=
  replaceLoop re (fun _ g => expand tmpl g) 0 None 0 src.

(** Pattern building blocks. *)
Definition plus (p : rune -> bool) : regex := Seq (Char p) (Star p).
Definition opt (a : regex) : regex := Alt a Empty.

Fixpoint seqOf (l : list regex) : regex :=
  match l with
  | [] => Empty
  | [a] => a
  | a :: l' => Seq a (seqOf l')
  end.

Definition lit (t : list rune) : regex := seqOf (map (fun c => Char (isRune c)) t).

(** Under [(?i)] a literal rune matches every rune of its case-folding
    orbit: both cases of an ASCII letter and, for [s] and [k], the long s
    (U+017F) and the Kelvin sign (U+212A). *)
Definition foldEq (c : rune) (r : rune) : bool :=
  ((r =? c) || (r =? asciiToLower c) || (r =? asciiToUpper c)
   || ((asciiToLower c =? 115) && (r =? 383))
   || ((asciiToLower c =? 107) && (r =? 8490)))%Z.

Definition litCI (t : list rune) : regex := seqOf (map (fun c => Char (foldEq c)) t).

(** What a match is: [matches re st m st'] says that [re] can take the
    attempt from [st] to [st'] by consuming the text [m].  The matcher only
    ever returns such matches ([rmatch_sound]). *)
Fixpoint matches (re : regex) (st : mstate) (m : list rune) (st' : mstate) : Prop :=
  match re with
  | Empty => m = [] ∧ st' = st
  | Char p =>
      ∃ c rest, p c = true ∧ m = [c] ∧ m_rest st = c :: rest ∧
        st' = {| m_prev := Some c; m_rest := rest; m_pos := S (m_pos st);
                 m_caps := m_caps st |}
  | Seq a b => ∃ m1 m2 mid, m = m1 ++ m2 ∧ matches a st m1 mid ∧ matches b mid m2 st'
  | Alt a b => matches a st m st' ∨ matches b st m st'
  | Star p =>
      Forall (fun c => p c = true) m ∧ m_rest st = m ++ m_rest st' ∧
      m_pos st' = m_pos st + length m ∧ m_caps st' = m_caps st
  | Group n a =>
      ∃ st1, matches a st m st1 ∧
        st' = {| m_prev := m_prev st1; m_rest := m_rest st1; m_pos := m_pos st1;
                 m_caps := (n, m) :: m_caps st1 |}
  | Begin => m = [] ∧ m_pos st = 0 ∧ st' = st
  | WordBoundary => m = [] ∧ atWordBoundary st = true ∧ st' = st
  end.

(** A view of a text: each rune gives a piece, [f c], and the view of the
    text is the pieces in order.  With [f c = [c]] for the runes of a class
    and [[]] for the others it is the text with everything else left out. *)
Definition view (f : rune -> list rune) (l : list rune) : list rune := flat_map f l.

(** Every rune a class of the pattern accepts is left out of the view. *)
Fixpoint silent (f : rune -> list rune) (re : regex) : Prop :=
  match re with
  | Char p | Star p => forall c, p c = true -> f c = []
  | Seq a b | Alt a b => silent f a /\ silent f b
  | Group _ a => silent f a
  | Empty | Begin | WordBoundary => True
  end.

(** Three views: the digits of a text; the text without white space; and
    the text without white space and with the ASCII letters in lower
    case. *)
Definition digitsOnly (c : rune) : list rune := if isDigit c then [c] else [].
Definition inkOnly (c : rune) : list rune := if isWS c then [] else [c].
Definition foldedInk (c : rune) : list rune := if isWS c then [] else [asciiToLower c].

(** The text without white space, full stops and the ellipsis sign. *)
Definition plainInk (c : rune) : list rune :=
  if isWS c || isRune 46%Z c || isRune 8230%Z c then [] else [c].

End Regexp.

Import Regexp.

Definition protectedHeads : gmap (list Z) bool :=
  list_to_map
    [ (runes "Jalan", true); (runes "Gunung", true); (runes "Sungai", true);
      (runes "Danau", true); (runes "Kota", true); (runes "Provinsi", true);
      (runes "Universitas", true); (runes "Institut", true);
      (runes "Sekolah", true); (runes "Rumah", true); (runes "Bank", true);
      (runes "PT", true); (runes "CV", true); (runes "RS", true);
      (runes "Hai", true) ].

Definition defaultExceptions : gmap (list Z) bool :=
  list_to_map
    [ (runes "Indonesia", true); (runes "Jakarta", true); (runes "Sahabat", true);
      (runes "Sampoerna", true); (runes "Call", true); (runes "Center", true);
      (runes "ATM", true); (runes "KTP", true); (runes "BI", true);
      (runes "BNI", true); (runes "BCA", true) ].

Section Puebi.

Variable X : UnicodeExt.

Definition IsLetter (r : rune) : bool := if isASCII r then asciiLetter r else extLetter X r.
Definition IsUpper (r : rune) : bool := if isASCII r then asciiUpper r else extUpper X r.
Definition IsLower (r : rune) : bool := if isASCII r then asciiLower r else extLower X r.
Definition IsSpace (r : rune) : bool := if isASCII r then asciiSpace r else extSpace X r.
Definition ToUpper (r : rune) : rune := if isASCII r then asciiToUpper r else extToUpper X r.
Definition ToLower (r : rune) : rune := if isASCII r then asciiToLower r else extToLower X r.

(** * Scanning loops

    [for j < n && p(rs[j]) { j++ }] leaves [j] at the first index from [j]
    on where [p] fails, or at [n]. *)

Fixpoint runLength (p : rune -> bool) (l : list rune) : nat :=
  match l with
  | r :: l' => if p r then S (runLength p l') else 0
  | [] => 0
  end.

Definition scanWhile (p : rune -> bool) (rs : list rune) (j : nat) : nat :=
  j + runLength p (drop j rs).

(** * decapitalizeMidSentence *)

Record wordPos := { wp_start : nat; wp_end : nat }.

Definition isSentenceEnd (r : rune) : bool :=
  ((r =? 46) || (r =? 33) || (r =? 63))%Z.

(** [isAllCaps]: the loop returns false at the first letter that is not
    upper case, and otherwise whether it saw a letter. *)
Fixpoint allCapsLoop (has : bool) (l : list rune) : bool :=
  match l with
  | [] => has
  | r :: l' =>
      if IsLetter r then (if IsUpper r then allCapsLoop true l' else false)
      else allCapsLoop has l'
  end.

Definition isAllCaps (l : list rune) : bool := allCapsLoop false l.

Fixpoint titleTail (l : list rune) : bool :=
  match l with
  | [] => true
  | r :: l' => if IsLetter r && negb (IsLower r) then false else titleTail l'
  end.

Definition isTitleCase (l : list rune) : bool :=
  match l with
  | [] => false
  | r :: l' => if IsUpper r then titleTail l' else false
  end.

(** The tokenizer: [for k < len(kal) { skip non-letters; start := k; take
    letters; if k > start { append } }].  Every round moves [k] forward, so
    [len(kal)] rounds are enough ([tokLoop_fuel]). *)
Fixpoint tokLoop (fuel : nat) (kal : list rune) (k : nat) (words : list wordPos)
  : list wordPos :=
  match fuel with
  | 0 => words
  | S fuel' =>
      if k <? length kal then
        let k1 := scanWhile (fun r => negb (IsLetter r)) kal k in
        let start := k1 in
        let k2 := scanWhile IsLetter kal k1 in
        tokLoop fuel' kal k2
          (if start <? k2 then words ++ [{| wp_start := start; wp_end := k2 |}]
           else words)
      else words
  end.

Definition tokenize (kal : list rune) : list wordPos := tokLoop (length kal) kal 0 [].

(** [for t := wp.start; t < wp.end; t++ { kal[t] = unicode.ToLower(kal[t]) }] *)
Fixpoint lowerRange (cnt t : nat) (kal : list rune) : list rune :=
  match cnt with
  | 0 => kal
  | S cnt' => lowerRange cnt' (S t) (alter ToLower t kal)
  end.

(** [m[w]] on a [map[string]bool]: a missing key reads as false. *)
Definition lookupBool (m : gmap (list Z) bool) (w : list rune) : bool :=
  default false (m !! w).

(** Where the sentence starting at [i] ends: the first [.], [!] or [?]. *)
Definition sentenceEnd (rs : list rune) (i : nat) : nat :=
  scanWhile (fun r => negb (isSentenceEnd r)) rs i.

(** Where the next sentence starts: after the terminal mark, if there is
    one, and the white space that follows. *)
Definition sentenceNext (rs : list rune) (i : nat) : nat :=
  let j := sentenceEnd rs i in
  let j := match rs !! j with
           | Some r => if isSentenceEnd r then S j else j
           | None => j
           end in
  scanWhile IsSpace rs j.

(** The sentence spans [(i, j)] the outer loop visits, in order. *)
Fixpoint spanLoop (fuel : nat) (rs : list rune) (i : nat) : list (nat * nat) :=
  match fuel with
  | 0 => []
  | S fuel' =>
      if i <? length rs then (i, sentenceEnd rs i) :: spanLoop fuel' rs (sentenceNext rs i)
      else []
  end.

Definition sentenceSpans (s : list rune) : list (nat * nat) := spanLoop (length s) s 0.

(** The runes of the word [wp] of the sentence that starts at [i], read in
    the document [s]. *)
Definition tokenText (s : list rune) (i : nat) (wp : wordPos) : list rune :=
  slice s (i + wp_start wp) (i + wp_end wp).

Section Engine.

Variable exceptions heads : gmap (list Z) bool.

(** The text of a word in the current buffer, [kal[wp.start:wp.end]]. *)
Definition wordText (kal : list rune) (wp : wordPos) : list rune :=
  slice kal (wp_start wp) (wp_end wp).

(** [heads[string(kal[words[wi-1].start:words[wi-1].end])]]: the test reads
    the previous word from the buffer as the earlier rounds left it, after
    that word may have been rewritten.  The guard [wi-1 >= 0] around it
    always holds, since round 0 has left by [continue]. *)
Definition afterHead (words : list wordPos) (wi : nat) (kal : list rune) : bool :=
  match words !! (wi - 1) with
  | Some pp => lookupBool heads (wordText kal pp)
  | None => false
  end.

(** One round of the loop over [words], on the buffer [kal]. *)
Definition wordStep (words : list wordPos) (wi : nat) (kal : list rune) : list rune :=
  if wi =? 0 then kal
  else
    match words !! wi with
    | None => kal
    | Some wp =>
        let wordRunes := wordText kal wp in
        if isAllCaps wordRunes || lookupBool exceptions wordRunes then kal
        else if afterHead words wi kal then kal
        else if isTitleCase wordRunes
             then lowerRange (wp_end wp - wp_start wp) (wp_start wp) kal
             else kal
    end.

(** [for wi := 0; wi < len(words); wi++], with [todo] rounds left. *)
Fixpoint wordLoop (words : list wordPos) (todo wi : nat) (kal : list rune) : list rune :=
  match todo with
  | 0 => kal
  | S todo' => wordLoop words todo' (S wi) (wordStep words wi kal)
  end.

(** What the engine does to one sentence [kal = rs[i:j]]. *)
Definition decapSentence (kal : list rune) : list rune :=
  let words := tokenize kal in
  wordLoop words (length words) 0 kal.

(** One round of the outer loop, from index [i] with output [out]: the
    rewritten sentence, its terminal mark if there is one, and the white
    space after it are appended; the result is the next [i] and [out].
    [kal] aliases [rs[i:j]], so the rewrite is also visible in [rs], but
    every later read of [rs] is at an index from [j] on. *)
Definition sentenceStep (rs : list rune) (i : nat) (out : list rune) : nat * list rune :=
  let j := sentenceEnd rs i in
  let kal := slice rs i j in
  let out := out ++ decapSentence kal in
  let '(out, j) :=
    match rs !! j with
    | Some r => if isSentenceEnd r then (out ++ [r], S j) else (out, j)
    | None => (out, j)
    end in
  let j' := scanWhile IsSpace rs j in
  (j', out ++ slice rs j j').

(** [for i := 0; i < n; { ...; i = j }].  Every round moves [i] forward, so
    [n] rounds are enough ([sentLoop_fuel]). *)
Fixpoint sentLoop (fuel : nat) (rs : list rune) (i : nat) (out : list rune) : list rune :=
  match fuel with
  | 0 => out
  | S fuel' =>
      if i <? length rs then
        let '(i', out') := sentenceStep rs i out in
        sentLoop fuel' rs i' out'
      else out
  end.

Definition decapitalizeMidSentence (s : list rune) : list rune :=
  sentLoop (length s) s 0 [].

End Engine.

(** * The pipeline *)

(** [strings.TrimSpace], [strings.Fields], [strings.SplitN(s, " ", 2)] and
    [strings.Join(l, " ")]. *)
Fixpoint trimLeft (l : list rune) : list rune :=
  match l with
  | r :: l' => if IsSpace r then trimLeft l' else l
  | [] => []
  end.

Definition TrimSpace (s : list rune) : list rune :=
  reverse (trimLeft (reverse (trimLeft s))).

Fixpoint fieldsLoop (cur : list rune) (l : list rune) : list (list rune) :=
  match l with
  | [] => match cur with [] => [] | _ => [cur] end
  | r :: l' =>
      if IsSpace r then
        match cur with [] => fieldsLoop [] l' | _ => cur :: fieldsLoop [] l' end
      else fieldsLoop (cur ++ [r]) l'
  end.

Definition Fields (s : list rune) : list (list rune) := fieldsLoop [] s.

(** [None] when there is no space: [SplitN] then returns one part. *)
Fixpoint splitAtSpace (l : list rune) : option (list rune * list rune) :=
  match l with
  | [] => None
  | r :: l' =>
      if (r =? 32)%Z then Some ([], l')
      else match splitAtSpace l' with
           | Some (a, b) => Some (r :: a, b)
           | None => None
           end
  end.

Fixpoint joinSpace (l : list (list rune)) : list rune :=
  match l with
  | [] => []
  | [t] => t
  | t :: l' => t ++ 32%Z :: joinSpace l'
  end.

Definition titleWord (w : list rune) : list rune :=
  match w with
  | [] => w
  | r :: l => ToUpper r :: map ToLower l
  end.

(** [\bHai\b\s+([^\n\r,.!?;:()]+)] *)
Definition reGreeting : regex :=
  seqOf [WordBoundary; lit (runes "Hai"); WordBoundary; plus isWS;
         Group 1 (plus (noneOf (10 :: 13 :: runes ",.!?;:()")%Z))].

Definition allLetter (t : list rune) : bool :=
  forallb (fun r => IsLetter r || (r =? 39)%Z || (r =? 45)%Z) t.

Definition greetingName (mtch : list rune) : list rune :=
  match splitAtSpace mtch with
  | None => mtch
  | Some (hd, rest) =>
      let tokens := Fields rest in
      match tokens with
      | [] => mtch
      | _ =>
          let limit := if 4 <? length tokens then 4 else length tokens in
          let tokens :=
            map (fun t => if allLetter t then titleWord t else t) (take limit tokens)
              ++ drop limit tokens in
          hd ++ 32%Z :: joinSpace tokens
      end
  end.

Definition fixGreetingNameCase (s : list rune) : list rune :=
  ReplaceAllStringFunc reGreeting s greetingName.

(** The precompiled patterns. *)
Definition punct1 : rune -> bool := oneOf (runes ",.;:!?").
Definition dot : regex := Char (isRune 46%Z).
Definition quote : rune -> bool := oneOf [39; 34]%Z.

Definition reMultiWS : regex := plus isWS.
Definition reSpaceBeforePunct : regex := Seq (plus isWS) (Group 1 (Char punct1)).
Definition reCommaSemiColonEtcSpace : regex :=
  Seq (Group 1 (Char (oneOf (runes ",;:!?"))))
      (Group 2 (Char (fun r => negb (isWS r || isRune 41%Z r)))).
Definition reDotSentenceSpace : regex :=
  seqOf [Group 1 (Alt Begin (Char (fun r => negb (isDigit r)))); dot;
         Group 2 (Char (fun r => negb (isDigit r || isWS r || isRune 41%Z r || isRune 46%Z r)))].
Definition reOpenParenSpaces : regex := Seq (Char (isRune 40%Z)) (plus isWS).
Definition reCloseParenSpaces : regex := Seq (plus isWS) (Char (isRune 41%Z)).
Definition reMultiDots : regex :=
  Alt (seqOf [dot; dot; dot; Star (isRune 46%Z)]) (Char (isRune 8230%Z)).
Definition reEllipsisNoLeftSp : regex :=
  seqOf [Group 1 (Char (noneOf [32; 9; 10; 13; 40; 91; 34; 39]%Z)); dot; dot; dot].
Definition reEllipsisNoRightSp : regex :=
  seqOf [dot; dot; dot;
         Group 1 (Char (noneOf ([32; 9; 10; 13; 41; 93; 34; 39; 187]%Z ++ runes ".,;:!?")))].
Definition reSpaceBeforeCloseQuote : regex := Seq (plus isWS) (Group 1 (Char quote)).
Definition reSpaceAfterOpenQuote : regex := Seq (Group 1 (Char quote)) (plus isWS).
Definition reDashTighten : regex := seqOf [Star isWS; Char (isRune 8212%Z); Star isWS].
Definition reRealTimeGeneric : regex :=
  seqOf [WordBoundary; litCI (runes "Real"); opt (Char (oneOf (runes " -")));
         litCI (runes "Time"); WordBoundary].
Definition reTransferRealTime : regex :=
  seqOf [WordBoundary; litCI (runes "Transfer"); plus isWS;
         litCI (runes "real time"); WordBoundary].
Definition reRpNumber : regex :=
  seqOf [WordBoundary; litCI (runes "rp"); opt dot; plus isWS; Group 1 (Char isDigit)].
Definition reRpNoSpace : regex :=
  seqOf [WordBoundary; litCI (runes "rp"); Group 1 (Char isDigit)].

Definition normalizeSpaces (s : list rune) : list rune :=
  let s := ReplaceAllString reMultiWS s [Lit (runes " ")] in
  ReplaceAllString reSpaceBeforePunct s [Ref 1].

Definition fixPunctuationSpacing (s : list rune) : list rune :=
  let s := ReplaceAllString reSpaceBeforePunct s [Ref 1] in
  let s := ReplaceAllString reMultiDots s [Lit (runes "...")] in
  let s := ReplaceAllString reEllipsisNoLeftSp s [Ref 1; Lit (runes " ...")] in
  let s := ReplaceAllString reEllipsisNoRightSp s [Lit (runes "... "); Ref 1] in
  let s := ReplaceAllString reCommaSemiColonEtcSpace s [Ref 1; Lit (runes " "); Ref 2] in
  let s := ReplaceAllString reDotSentenceSpace s [Ref 1; Lit (runes ". "); Ref 2] in
  let s := ReplaceAllString reOpenParenSpaces s [Lit (runes "(")] in
  let s := ReplaceAllString reCloseParenSpaces s [Lit (runes ")")] in
  let s := ReplaceAllString reSpaceBeforeCloseQuote s [Ref 1] in
  let s := ReplaceAllString reSpaceAfterOpenQuote s [Ref 1] in
  let s := ReplaceAllString reDashTighten s [Lit [8212%Z]] in
  ReplaceAllString reMultiWS s [Lit (runes " ")].

(** [\b] + prefix + w + [\b] is replaced by prefix + [" "] + w. *)
Definition splitPrefix (prefix : list rune) (s : list rune) (w : list rune) : list rune :=
  ReplaceAllString (seqOf [WordBoundary; lit (prefix ++ w); WordBoundary]) s
    [Lit (prefix ++ 32%Z :: w)].

Definition splitDiKe (s : list rune) (w : list rune) : list rune :=
  splitPrefix (runes "ke") (splitPrefix (runes "di") s w) w.

Definition locatives : list (list rune) :=
  map runes ["luar"; "dalam"; "atas"; "bawah"; "depan"; "belakang"; "samping"; "antara"]%string.
Definition places : list (list rune) :=
  map runes ["rumah"; "kantor"; "sekolah"; "pasar"; "bank"; "jalan"; "masjid"; "gereja"; "kampus"]%string.
Definition phrases : list (list rune) :=
  map runes ["tiap"; "setiap"; "mana"; "sini"; "situ"; "sana"]%string.

Definition fixCommonPrepositions (s : list rune) : list rune :=
  let s := fold_left splitDiKe locatives s in
  let s := fold_left splitDiKe places s in
  let s := ReplaceAllString
             (seqOf [WordBoundary; Char (oneOf (runes "Kk")); lit (runes "e pada"); WordBoundary])
             s [Lit (runes "kepada")] in
  let s := ReplaceAllString
             (seqOf [WordBoundary; Char (oneOf (runes "Dd")); lit (runes "ari pada"); WordBoundary])
             s [Lit (runes "daripada")] in
  fold_left (splitPrefix (runes "di")) phrases s.

Definition normalizeRealTime (s : list rune) : list rune :=
  let s := ReplaceAllString reRealTimeGeneric s [Lit (runes "real time")] in
  ReplaceAllString reTransferRealTime s [Lit (runes "transfer real time")].

(** [firstLetterIndex]; [None] stands for the result -1. *)
Fixpoint findLetter (l : list rune) (i : nat) : option nat :=
  match l with
  | [] => None
  | r :: l' => if IsLetter r then Some i else findLetter l' (S i)
  end.

Definition firstLetterIndex (r : list rune) (start : nat) : option nat :=
  findLetter (drop start r) start.

Definition upperAt (r : list rune) (i : option nat) : list rune :=
  match i with
  | Some i => alter ToUpper i r
  | None => r
  end.

(** [for idx := 0; idx < n; idx++], with [todo] rounds left; the array is
    rewritten in place and read again by the later rounds. *)
Fixpoint capLoop (todo idx : nat) (r : list rune) : list rune :=
  match todo with
  | 0 => r
  | S todo' =>
      capLoop todo' (S idx)
        (if from_option isSentenceEnd false (r !! idx)
         then upperAt r (firstLetterIndex r (idx + 1))
         else r)
  end.

Definition capitalizeSentences (s : list rune) : list rune :=
  let r := upperAt s (firstLetterIndex s 0) in
  capLoop (length s) 0 r.

Definition fixIDRCurrency (s : list rune) : list rune :=
  let s := ReplaceAllString reRpNumber s [Lit (runes "Rp"); Ref 1] in
  ReplaceAllString reRpNoSpace s [Lit (runes "Rp"); Ref 1].

Definition SanitizeToPUEBI (s : list rune) : list rune :=
  match TrimSpace s with
  | [] => s
  | _ =>
      let s := normalizeSpaces s in
      let s := fixPunctuationSpacing s in
      let s := fixCommonPrepositions s in
      let s := normalizeRealTime s in
      let s := capitalizeSentences s in
      let s := fixGreetingNameCase s in
      let s := decapitalizeMidSentence defaultExceptions protectedHeads s in
      let s := fixIDRCurrency s in
      TrimSpace s
  end.

Definition IsSentenceCapitalized (s : list rune) : bool :=
  let s := TrimSpace s in
  match s with
  | [] => true
  | _ =>
      match firstLetterIndex s 0 with
      | Some i => from_option IsUpper false (s !! i)
      | None => true
      end
  end.

(** [TitleCase]: the loop over [words] rewrites each word as [titleWord]
    does (an empty word is skipped, and [strings.Fields] returns none). *)
Definition TitleCase (s : list rune) : list rune :=
  joinSpace (map titleWord (Fields s)).

End Puebi.

(** * Inputs of the examples *)

(** The sentence [main.go] passes to [SanitizeToPUEBI]. *)
Definition demo : list rune :=
  runes "Hai Luqman, Anda telah melakukan Transfer Real Time dari rekening 1023613267 sejumlah Rp 12.000. Pastikan transaksi ini benar dilakukan atau Hubungi Call Center 1500 035.".

Definition demoOut : list rune :=
  runes "Hai Luqman, anda telah melakukan transfer real time dari rekening 1023613267 sejumlah Rp12.000. Pastikan transaksi ini benar dilakukan atau hubungi Call Center 1500 035.".

(** The example of the comment on [fixGreetingNameCase]. *)
Definition greeting : list rune := runes "Hai luqmanul hakim,".

(** A protected head in the middle of a sentence. *)
Definition street : list rune := runes "Saya ke Jalan Sudirman".

(** The text of scenario 2 as the specification quotes it. *)
Definition quoted : list rune :=
  runes "...Transfer Real Time dari rekening 1023613267 sejumlah Rp 12.000....".

(** A currency marker written with a full stop, before a capitalised word. *)
Definition amount : list rune := runes "A rp. 5 Budi".

(** [isInfixOf t s]: the text [t] occurs in [s]. *)
Fixpoint isPrefixOf (t s : list rune) : bool :=
  match t, s with
  | [], _ => true
  | c :: t', d :: s' => (c =? d)%Z && isPrefixOf t' s'
  | _ :: _, [] => false
  end.

Fixpoint isInfixOf (t s : list rune) : bool :=
  isPrefixOf t s || match s with [] => false | _ :: s' => isInfixOf t s' end.


(** * Predicates of the statements *)

Section Predicates.

Variable X : UnicodeExt.

(** The index [t] lies in the span of [wp]. *)
Definition inSpan (wp : wordPos) (t : nat) : Prop := wp_start wp ≤ t < wp_end wp.

(** Every index of the span of [wp] holds a letter of [kal]. *)
Definition lettersAt (kal : list rune) (wp : wordPos) : Prop :=
  ∀ t, wp_start wp ≤ t < wp_end wp → ∃ r, kal !! t = Some r ∧ IsLetter X r = true.

(** The word list built so far: non-empty letter spans that end by [k], in
    increasing order and apart from each other. *)
Record wordsOK (kal : list rune) (k : nat) (words : list wordPos) : Prop := {
  ok_word : ∀ i wp, words !! i = Some wp →
    wp_start wp < wp_end wp ∧ wp_end wp ≤ k ∧ lettersAt kal wp;
  ok_order : ∀ i j wpi wpj, i < j → words !! i = Some wpi → words !! j = Some wpj →
    wp_end wpi ≤ wp_start wpj
}.

(** Every letter of [kal] before [k] lies in the span of a word. *)
Definition covered (kal : list rune) (k : nat) (words : list wordPos) : Prop :=
  ∀ t r, t < k → kal !! t = Some r → IsLetter X r = true →
    ∃ i wp, words !! i = Some wp ∧ inSpan wp t.

(** No word can be extended to the right: the rune at its end, if there is
    one, is not a letter. *)
Definition stopped (kal : list rune) (words : list wordPos) : Prop :=
  ∀ i wp r, words !! i = Some wp → kal !! wp_end wp = Some r → IsLetter X r = false.

(** Two runes that the scans of the engine cannot tell apart. *)
Definition sameClass (r r' : rune) : Prop :=
  IsLetter X r' = IsLetter X r ∧ isSentenceEnd r' = isSentenceEnd r ∧
  IsSpace X r' = IsSpace X r.

(** The index [t] is where [capitalizeSentences] writes: the first letter of
    the text, or the first letter after a terminal mark. *)
Definition sentenceStart (s : list rune) (t : nat) : Prop :=
  firstLetterIndex X s 0 = Some t ∨
  ∃ idx r, s !! idx = Some r ∧ isSentenceEnd r = true ∧
           firstLetterIndex X s (idx + 1) = Some t.

(** The same, for the terminal marks before index [idx] only. *)
Definition startBefore (s : list rune) (idx t : nat) : Prop :=
  firstLetterIndex X s 0 = Some t ∨
  ∃ i r, i < idx ∧ s !! i = Some r ∧ isSentenceEnd r = true ∧
         firstLetterIndex X s (i + 1) = Some t.

(** The array [cur] is the text [s] with the runes at the indexes of [P]
    raised and the others as they were. *)
Definition raisedAt (s : list rune) (P : nat → Prop) (cur : list rune) : Prop :=
  length cur = length s ∧
  ∀ t, (P t → cur !! t = ToUpper X <$> s !! t) ∧
       (cur !! t = s !! t ∨ (P t ∧ cur !! t = ToUpper X <$> s !! t)).

(** The first letter of a text, if it has one. *)
Fixpoint firstLetter (l : list rune) : option rune :=
  match l with
  | [] => None
  | r :: l' => if IsLetter X r then Some r else firstLetter l'
  end.

(** What the engine may do to a rune: keep it, or lower it if it is a
    letter. *)
Definition keptOrLowered (r r' : rune) : Prop :=
  r' = r ∨ (IsLetter X r = true ∧ r' = ToLower X r).

(** The runes no pass of the pipeline writes, moves or removes: every rune
    but the letters, the white space, the hyphen, the full stop, the long s
    (U+017F, which [(?i)] folds to [s]) and the ellipsis sign.  [marks c] is
    [[c]] for such a rune and [[]] for the others. *)
Definition marks (c : rune) : list rune :=
  if IsLetter X c || IsSpace X c || oneOf [45; 46; 383; 8230]%Z c then [] else [c].

End Predicates.

(** * Scanning and slices *)

Section Scanning.

Variable p : rune -> bool.

Lemma runLength_le l : runLength p l ≤ length l.
Proof. induction l as [|r l IH]; simpl; [lia|]. destruct (p r); simpl; lia. Qed.

Lemma runLength_all l t : t < runLength p l → ∃ r, l !! t = Some r ∧ p r = true.
Proof.
  revert t. induction l as [|r l IH]; simpl; intros t Ht; [lia|].
  destruct (p r) eqn:Hp; [|lia].
  destruct t as [|t]; simpl; [eauto|]. apply IH. lia.
Qed.

Lemma runLength_stop l r : l !! runLength p l = Some r → p r = false.
Proof.
  induction l as [|r0 l IH]; simpl; [done|].
  destruct (p r0) eqn:Hp; simpl; [done|]. by intros [= <-].
Qed.

Lemma scanWhile_ge rs j : j ≤ scanWhile p rs j.
Proof. unfold scanWhile. lia. Qed.

Lemma scanWhile_le rs j : j ≤ length rs → scanWhile p rs j ≤ length rs.
Proof.
  intros Hj. unfold scanWhile.
  pose proof (runLength_le (drop j rs)) as H. rewrite length_drop in H. lia.
Qed.

Lemma scanWhile_all rs j t :
  j ≤ t < scanWhile p rs j → ∃ r, rs !! t = Some r ∧ p r = true.
Proof.
  unfold scanWhile. intros Ht.
  destruct (runLength_all (drop j rs) (t - j)) as (r & Hr & Hp); [lia|].
  rewrite lookup_drop in Hr. replace (j + (t - j)) with t in Hr by lia. eauto.
Qed.

Lemma scanWhile_stop rs j r : rs !! scanWhile p rs j = Some r → p r = false.
Proof.
  unfold scanWhile. intros Hr. apply (runLength_stop (drop j rs)).
  by rewrite lookup_drop.
Qed.

Lemma scanWhile_step rs j r : rs !! j = Some r → p r = true → j < scanWhile p rs j.
Proof.
  intros Hr Hp. unfold scanWhile.
  destruct (drop j rs) as [|r0 l] eqn:Hd.
  - apply (f_equal (fun l => l !! 0)) in Hd. rewrite lookup_drop, Nat.add_0_r in Hd.
    simpl in Hd. congruence.
  - apply (f_equal (fun l => l !! 0)) in Hd. rewrite lookup_drop, Nat.add_0_r in Hd.
    simpl in Hd. assert (r0 = r) as -> by congruence. simpl. rewrite Hp. lia.
Qed.

End Scanning.

Section Slices.

Context {A : Type}.
Implicit Types l : list A.

Lemma lookup_slice l a b t :
  slice l a b !! t = if decide (t < b - a) then l !! (a + t) else None.
Proof. unfold slice. rewrite lookup_take. case_decide; [apply lookup_drop|done]. Qed.

Lemma length_slice l a b : b ≤ length l → length (slice l a b) = b - a.
Proof. intros. unfold slice. rewrite length_take, length_drop. lia. Qed.

Lemma slice_ext l1 l2 a b :
  (∀ t, a ≤ t < b → l1 !! t = l2 !! t) → slice l1 a b = slice l2 a b.
Proof.
  intros H. apply list_eq. intros t. rewrite !lookup_slice.
  case_decide; [apply H; lia|done].
Qed.

Lemma slice_slice l i j a b :
  i + b ≤ j → slice (slice l i j) a b = slice l (i + a) (i + b).
Proof.
  intros H. apply list_eq. intros t. rewrite !lookup_slice.
  repeat case_decide; try lia; try done. f_equal. lia.
Qed.

Lemma slice_app_next l a b c :
  a ≤ b ≤ c → slice l a b ++ slice l b c = slice l a c.
Proof.
  intros H. unfold slice.
  replace (drop b l) with (drop (b - a) (drop a l)) by (rewrite drop_drop; f_equal; lia).
  replace (c - a) with ((b - a) + (c - b)) by lia.
  by rewrite take_take_drop.
Qed.

Lemma slice_full l : slice l 0 (length l) = l.
Proof. unfold slice. rewrite Nat.sub_0_r. simpl. apply firstn_all. Qed.

End Slices.

(** * The tokenizer *)

Section Tokenizer.

Variable X : UnicodeExt.

Lemma wordsOK_mono kal k k' words :
  wordsOK X kal k words → k ≤ k' → wordsOK X kal k' words.
Proof.
  intros [Hw Ho] Hk. split; [|done].
  intros i wp Hi. destruct (Hw i wp Hi) as (? & ? & ?). repeat split; [lia..|done].
Qed.

Lemma wordsOK_snoc kal k words a b :
  wordsOK X kal k words → k ≤ a → a < b →
  lettersAt X kal {| wp_start := a; wp_end := b |} →
  wordsOK X kal b (words ++ [{| wp_start := a; wp_end := b |}]).
Proof.
  intros [Hw Ho] Hk Hab Hl. split.
  - intros i wp Hi. apply lookup_app_Some in Hi as [Hi|[_ Hi]].
    + destruct (Hw i wp Hi) as (? & ? & ?). repeat split; [lia..|done].
    + apply list_lookup_singleton_Some in Hi as [_ <-]. simpl. repeat split; [lia..|done].
  - intros i j wpi wpj Hij Hi Hj.
    apply lookup_app_Some in Hj as [Hj|[Hlen Hj]].
    + apply lookup_app_Some in Hi as [Hi|[Hleni _]]; [by eapply Ho|].
      apply lookup_lt_Some in Hj. lia.
    + apply list_lookup_singleton_Some in Hj as [Hj0 <-]. simpl.
      apply lookup_app_Some in Hi as [Hi|[Hleni _]]; [|lia].
      destruct (Hw i wpi Hi) as (? & ? & ?). lia.
Qed.

(** A round of the tokenizer moves [k] forward. *)
Lemma tok_progress kal k :
  k < length kal →
  k < scanWhile (IsLetter X) kal (scanWhile (fun r => negb (IsLetter X r)) kal k).
Proof.
  intros Hk. set (k1 := scanWhile _ kal k).
  pose proof (scanWhile_ge (fun r => negb (IsLetter X r)) kal k) as H1. fold k1 in H1.
  pose proof (scanWhile_ge (IsLetter X) kal k1) as H2.
  destruct (decide (k < k1)); [lia|]. assert (k1 = k) as Hk1 by lia.
  destruct (lookup_lt_is_Some_2 kal k Hk) as [r Hr].
  assert (negb (IsLetter X r) = false) as Hn.
  { apply (scanWhile_stop (fun r => negb (IsLetter X r)) kal k). fold k1. by rewrite Hk1. }
  rewrite Hk1. apply (scanWhile_step _ _ _ r Hr). by destruct (IsLetter X r).
Qed.

Lemma tokLoop_ok kal fuel k words :
  k ≤ length kal → wordsOK X kal k words →
  wordsOK X kal (length kal) (tokLoop X fuel kal k words).
Proof.
  revert k words. induction fuel as [|fuel IH]; simpl; intros k words Hk Hok.
  - by eapply wordsOK_mono.
  - destruct (k <? length kal) eqn:Hlt; [|by eapply wordsOK_mono].
    apply Nat.ltb_lt in Hlt.
    set (k1 := scanWhile (fun r => negb (IsLetter X r)) kal k).
    set (k2 := scanWhile (IsLetter X) kal k1).
    assert (k ≤ k1) by apply scanWhile_ge.
    assert (k1 ≤ length kal) by (apply scanWhile_le; lia).
    assert (k1 ≤ k2) by apply scanWhile_ge.
    assert (k2 ≤ length kal) by (by apply scanWhile_le).
    apply IH; [done|].
    destruct (k1 <? k2) eqn:Hw.
    + apply Nat.ltb_lt in Hw. apply wordsOK_snoc with k; [done|lia|done|].
      intros t Ht. simpl in Ht. by apply (scanWhile_all (IsLetter X) kal k1).
    + eapply wordsOK_mono; [done|lia].
Qed.

Lemma tokenize_ok kal : wordsOK X kal (length kal) (tokenize X kal).
Proof.
  apply tokLoop_ok; [lia|]. split; intros *; by rewrite ?lookup_nil.
Qed.

(** The bound on the rounds is never what ends the loop: any bound from
    [len(kal) - k] on gives the same words. *)
Lemma tokLoop_fuel kal f1 f2 k words :
  length kal - k ≤ f1 → length kal - k ≤ f2 →
  tokLoop X f1 kal k words = tokLoop X f2 kal k words.
Proof.
  revert f2 k words. induction f1 as [|f1 IH]; intros [|f2] k words H1 H2; simpl.
  - done.
  - assert ((k <? length kal) = false) as -> by (apply Nat.ltb_ge; lia). done.
  - assert ((k <? length kal) = false) as -> by (apply Nat.ltb_ge; lia). done.
  - destruct (k <? length kal) eqn:Hlt; [|done]. apply Nat.ltb_lt in Hlt.
    pose proof (tok_progress kal k Hlt). apply IH; lia.
Qed.

(** The words are all of the letters of the sentence: the loop does not
    stop early. *)
Lemma tokLoop_cover kal fuel k words :
  k ≤ length kal → length kal - k ≤ fuel → covered X kal k words →
  covered X kal (length kal) (tokLoop X fuel kal k words).
Proof.
  revert k words. induction fuel as [|fuel IH]; simpl; intros k words Hk Hf Hc.
  - by replace (length kal) with k by lia.
  - destruct (k <? length kal) eqn:Hlt.
    2:{ apply Nat.ltb_ge in Hlt. by replace (length kal) with k by lia. }
    apply Nat.ltb_lt in Hlt.
    pose proof (tok_progress kal k Hlt) as Hp.
    set (k1 := scanWhile (fun r => negb (IsLetter X r)) kal k) in *.
    set (k2 := scanWhile (IsLetter X) kal k1) in *.
    assert (k ≤ k1) by apply scanWhile_ge.
    assert (k1 ≤ length kal) by (apply scanWhile_le; lia).
    assert (k1 ≤ k2) by apply scanWhile_ge.
    assert (k2 ≤ length kal) by (by apply scanWhile_le).
    apply IH; [done|lia|].
    intros t r Ht Hr HL.
    destruct (decide (t < k)) as [Htk|Htk].
    { destruct (Hc t r Htk Hr HL) as (i & wp & Hi & Hin). exists i, wp. split; [|done].
      destruct (k1 <? k2); [by apply lookup_app_l_Some|done]. }
    destruct (decide (t < k1)) as [Htk1|Htk1].
    { destruct (scanWhile_all (fun r => negb (IsLetter X r)) kal k t) as (r0 & Hr0 & Hn);
        [fold k1; lia|].
      assert (r0 = r) as -> by congruence. by rewrite HL in Hn. }
    assert ((k1 <? k2) = true) as -> by (apply Nat.ltb_lt; lia).
    exists (length words), {| wp_start := k1; wp_end := k2 |}. split.
    + rewrite lookup_app_r by lia. by rewrite Nat.sub_diag.
    + unfold inSpan. simpl. lia.
Qed.

Lemma tokenize_cover kal t r :
  kal !! t = Some r → IsLetter X r = true →
  ∃ i wp, tokenize X kal !! i = Some wp ∧ inSpan wp t.
Proof.
  intros Hr HL.
  assert (covered X kal 0 []) as H0 by (intros t0 r0 Ht0; lia).
  apply (tokLoop_cover kal (length kal) 0 [] ltac:(lia) ltac:(lia) H0 t r);
    [by eapply lookup_lt_Some|done|done].
Qed.

Lemma tokLoop_stopped kal fuel k words :
  stopped X kal words → stopped X kal (tokLoop X fuel kal k words).
Proof.
  revert k words. induction fuel as [|fuel IH]; simpl; intros k words Hs; [done|].
  destruct (k <? length kal); [|done]. apply IH.
  destruct (_ <? _); [|done].
  intros i wp r Hi Hr. apply lookup_app_Some in Hi as [Hi|[_ Hi]]; [by eapply Hs|].
  apply list_lookup_singleton_Some in Hi as [_ <-]. simpl in Hr.
  by apply scanWhile_stop in Hr.
Qed.

(** A word is a maximal run of letters: the rune after it and the rune
    before it, where there is one, are not letters. *)
Lemma tokenize_maximal kal i wp :
  tokenize X kal !! i = Some wp →
  (∀ r, kal !! wp_end wp = Some r → IsLetter X r = false) ∧
  (∀ t r, S t = wp_start wp → kal !! t = Some r → IsLetter X r = false).
Proof.
  intros Hwp.
  assert (stopped X kal (tokenize X kal)) as Hstop.
  { apply tokLoop_stopped. intros j w r Hj. by rewrite lookup_nil in Hj. }
  pose proof (tokenize_ok kal) as Hok. split; [intros r; by apply (Hstop i wp)|].
  intros t r Ht Hr. destruct (IsLetter X r) eqn:HL; [|done]. exfalso.
  destruct (tokenize_cover kal t r Hr HL) as (j & wpj & Hj & Hin). unfold inSpan in Hin.
  destruct (ok_word _ _ _ _ Hok i wp Hwp) as (Hne & _ & Hl).
  destruct (Nat.lt_trichotomy j i) as [Hji|[->|Hji]].
  - pose proof (ok_order _ _ _ _ Hok j i wpj wp Hji Hj Hwp).
    destruct (Hl (wp_start wp)) as (r0 & Hr0 & HL0); [unfold inSpan; lia|].
    assert (wp_end wpj = wp_start wp) as He by lia.
    rewrite <-He in Hr0. rewrite (Hstop j wpj r0 Hj Hr0) in HL0. done.
  - assert (wpj = wp) as -> by congruence. lia.
  - pose proof (ok_order _ _ _ _ Hok i j wp wpj Hji Hwp Hj). lia.
Qed.

End Tokenizer.

(** * One sentence *)

Section Sentence.

Variable X : UnicodeExt.
Variables exceptions heads : gmap (list Z) bool.

Abbreviation wordStep := (wordStep X exceptions heads).
Abbreviation wordLoop := (wordLoop X exceptions heads).
Abbreviation decapSentence := (decapSentence X exceptions heads).

Lemma lowerRange_lookup cnt t0 kal t :
  lowerRange X cnt t0 kal !! t =
    if decide (t0 ≤ t < t0 + cnt) then ToLower X <$> kal !! t else kal !! t.
Proof.
  revert t0 kal. induction cnt as [|cnt IH]; simpl; intros t0 kal.
  - case_decide; [lia|done].
  - rewrite IH, list_lookup_alter. repeat case_decide; subst; try lia; done.
Qed.

Lemma lowerRange_length cnt t0 kal : length (lowerRange X cnt t0 kal) = length kal.
Proof.
  revert t0 kal. induction cnt as [|cnt IH]; simpl; intros; [done|].
  by rewrite IH, length_alter.
Qed.

Lemma lowerRange_word kal wp :
  wp_start wp ≤ wp_end wp →
  wordText (lowerRange X (wp_end wp - wp_start wp) (wp_start wp) kal) wp
  = map (ToLower X) (wordText kal wp).
Proof.
  intros Hle. apply list_eq. intros t. unfold wordText.
  rewrite list_lookup_fmap, !lookup_slice. case_decide; [|done].
  rewrite lowerRange_lookup. case_decide; [done|lia].
Qed.

(** The cases of a round. *)
Lemma wordStep_first words kal : wordStep words 0 kal = kal.
Proof. done. Qed.

Lemma wordStep_skip words wi wp kal :
  words !! wi = Some wp →
  isAllCaps X (wordText kal wp) || lookupBool exceptions (wordText kal wp) = true →
  wordStep words wi kal = kal.
Proof.
  intros Hwp Hc. unfold wordStep. destruct (wi =? 0); [done|]. by rewrite Hwp, Hc.
Qed.

Lemma wordStep_protected words wi pp kal :
  words !! wi = Some pp → lookupBool heads (wordText kal pp) = true →
  wordStep words (S wi) kal = kal.
Proof.
  intros Hpp Hh. unfold wordStep, afterHead. simpl. rewrite Nat.sub_0_r, Hpp, Hh.
  destruct (words !! S wi); [|done]. by destruct (_ || _).
Qed.

Lemma wordStep_lower words wi wp pp kal :
  words !! S wi = Some wp → words !! wi = Some pp →
  isAllCaps X (wordText kal wp) || lookupBool exceptions (wordText kal wp) = false →
  lookupBool heads (wordText kal pp) = false →
  wordStep words (S wi) kal =
    if isTitleCase X (wordText kal wp)
    then lowerRange X (wp_end wp - wp_start wp) (wp_start wp) kal else kal.
Proof.
  intros Hwp Hpp Hc Hh. unfold wordStep, afterHead. simpl.
  by rewrite Nat.sub_0_r, Hwp, Hpp, Hc, Hh.
Qed.

Lemma wordStep_length words wi kal : length (wordStep words wi kal) = length kal.
Proof.
  unfold wordStep. destruct (wi =? 0); [done|]. destruct (words !! wi); [|done].
  destruct (_ || _); [done|]. destruct (afterHead _ _ _ _); [done|].
  destruct (isTitleCase _ _); [apply lowerRange_length|done].
Qed.

(** A round changes nothing outside the span of its word, and inside it
    lowers or keeps. *)
Lemma wordStep_change words wi kal t :
  wordStep words wi kal !! t = kal !! t ∨
  (∃ wp, 0 < wi ∧ words !! wi = Some wp ∧ inSpan wp t ∧
         wordStep words wi kal !! t = ToLower X <$> kal !! t).
Proof.
  unfold wordStep. destruct (wi =? 0) eqn:H0; [by left|]. apply Nat.eqb_neq in H0.
  destruct (words !! wi) as [wp|] eqn:Hwp; [|by left].
  destruct (_ || _); [by left|].
  destruct (afterHead _ _ _ _); [by left|].
  destruct (isTitleCase _ _); [|by left].
  rewrite lowerRange_lookup. case_decide; [|by left].
  right. exists wp. unfold inSpan. repeat split; (done || lia).
Qed.

Lemma wordStep_frame words wi kal t :
  (∀ wp, words !! wi = Some wp → ¬ inSpan wp t) →
  wordStep words wi kal !! t = kal !! t.
Proof.
  intros H. destruct (wordStep_change words wi kal t) as [|(wp & _ & Hwp & Hin & _)]; [done|].
  by destruct (H wp Hwp).
Qed.

Lemma wordLoop_length words todo wi kal : length (wordLoop words todo wi kal) = length kal.
Proof.
  revert wi kal. induction todo as [|todo IH]; simpl; intros; [done|].
  by rewrite IH, wordStep_length.
Qed.

Lemma wordLoop_frame words todo wi kal t :
  (∀ i wp, wi ≤ i < wi + todo → words !! i = Some wp → ¬ inSpan wp t) →
  wordLoop words todo wi kal !! t = kal !! t.
Proof.
  revert wi kal. induction todo as [|todo IH]; simpl; intros wi kal H; [done|].
  rewrite IH.
  - apply wordStep_frame. intros wp Hwp. apply (H wi); [lia|done].
  - intros i wp Hi. apply H. lia.
Qed.

Lemma wordLoop_split words a b wi kal :
  wordLoop words (a + b) wi kal = wordLoop words b (wi + a) (wordLoop words a wi kal).
Proof.
  revert wi kal. induction a as [|a IH]; simpl; intros wi kal.
  - by rewrite Nat.add_0_r.
  - rewrite IH. by replace (wi + S a) with (S wi + a) by lia.
Qed.

Section Words.

Variable kal : list rune.
Variable words : list wordPos.
Hypothesis Hok : wordsOK X kal (length kal) words.

Lemma words_apart i j wpi wpj t :
  words !! i = Some wpi → words !! j = Some wpj → inSpan wpi t → inSpan wpj t → i = j.
Proof.
  intros Hi Hj Hti Htj. unfold inSpan in *.
  destruct (Nat.lt_trichotomy i j) as [Hlt|[->|Hlt]]; [|done|].
  - pose proof (ok_order _ _ _ _ Hok i j wpi wpj Hlt Hi Hj). lia.
  - pose proof (ok_order _ _ _ _ Hok j i wpj wpi Hlt Hj Hi). lia.
Qed.

(** Before its round a word reads as in the input. *)
Lemma word_before i wp t :
  words !! i = Some wp → inSpan wp t →
  wordLoop words i 0 kal !! t = kal !! t.
Proof.
  intros Hwp Ht. apply wordLoop_frame. intros j wpj Hj Hwpj Htj.
  assert (j = i) by (by eapply words_apart). lia.
Qed.

(** After its round a word is not touched again. *)
Lemma word_after i wp t m :
  words !! i = Some wp → inSpan wp t → i < m → m ≤ length words →
  wordLoop words (length words) 0 kal !! t = wordLoop words m 0 kal !! t.
Proof.
  intros Hwp Ht Him Hm.
  replace (length words) with (m + (length words - m)) at 1 by lia.
  rewrite wordLoop_split. apply wordLoop_frame. intros j wpj Hj Hwpj Htj.
  assert (j = i) by (by eapply words_apart). lia.
Qed.

Lemma wordText_before i wp :
  words !! i = Some wp → wordText (wordLoop words i 0 kal) wp = wordText kal wp.
Proof. intros Hwp. apply slice_ext. intros t Ht. by eapply word_before. Qed.

Lemma wordText_after i wp m :
  words !! i = Some wp → i < m → m ≤ length words →
  wordText (wordLoop words (length words) 0 kal) wp = wordText (wordLoop words m 0 kal) wp.
Proof. intros Hwp Him Hm. apply slice_ext. intros t Ht. by eapply word_after. Qed.

Lemma wordLoop_S m : wordLoop words (S m) 0 kal = wordStep words m (wordLoop words m 0 kal).
Proof. replace (S m) with (m + 1) by lia. rewrite wordLoop_split. done. Qed.

(** Word 0 is kept. *)
Lemma final_first wp :
  words !! 0 = Some wp →
  wordText (wordLoop words (length words) 0 kal) wp = wordText kal wp.
Proof.
  intros Hwp. pose proof (lookup_lt_Some _ _ _ Hwp) as Hlen.
  rewrite (wordText_after 0 wp 1 Hwp) by lia.
  by rewrite wordLoop_S, wordStep_first.
Qed.

(** A word that is all upper case or in the exception set is kept. *)
Lemma final_skip i wp :
  words !! i = Some wp →
  isAllCaps X (wordText kal wp) || lookupBool exceptions (wordText kal wp) = true →
  wordText (wordLoop words (length words) 0 kal) wp = wordText kal wp.
Proof.
  intros Hwp Hc. pose proof (lookup_lt_Some _ _ _ Hwp) as Hlen.
  rewrite (wordText_after i wp (S i) Hwp) by lia.
  rewrite wordLoop_S, (wordStep_skip words i wp); [by apply wordText_before|done|].
  by rewrite wordText_before.
Qed.

(** A word after a head is kept, where the head is read as the engine left
    it. *)
Lemma final_protected i pp wp :
  words !! i = Some pp → words !! S i = Some wp →
  lookupBool heads (wordText (wordLoop words (length words) 0 kal) pp) = true →
  wordText (wordLoop words (length words) 0 kal) wp = wordText kal wp.
Proof.
  intros Hpp Hwp Hh. pose proof (lookup_lt_Some _ _ _ Hwp) as Hlen.
  rewrite (wordText_after i pp (S i) Hpp) in Hh by lia.
  rewrite (wordText_after (S i) wp (S (S i)) Hwp) by lia.
  rewrite wordLoop_S, (wordStep_protected words i pp); [by apply wordText_before|done|done].
Qed.

(** Any other word is lowered if it is in title case. *)
Lemma final_lower i pp wp :
  words !! i = Some pp → words !! S i = Some wp →
  isAllCaps X (wordText kal wp) || lookupBool exceptions (wordText kal wp) = false →
  lookupBool heads (wordText (wordLoop words (length words) 0 kal) pp) = false →
  wordText (wordLoop words (length words) 0 kal) wp =
    if isTitleCase X (wordText kal wp) then map (ToLower X) (wordText kal wp)
    else wordText kal wp.
Proof.
  intros Hpp Hwp Hc Hh. pose proof (lookup_lt_Some _ _ _ Hwp) as Hlen.
  rewrite (wordText_after i pp (S i) Hpp) in Hh by lia.
  rewrite (wordText_after (S i) wp (S (S i)) Hwp) by lia.
  pose proof (wordText_before (S i) wp Hwp) as Hb.
  rewrite wordLoop_S, (wordStep_lower words i wp pp); rewrite ?Hb; [|done..].
  destruct (isTitleCase X (wordText kal wp)); [|done].
  rewrite lowerRange_word, Hb; [done|].
  destruct (ok_word _ _ _ _ Hok (S i) wp Hwp). lia.
Qed.

(** Every rune of the sentence is kept or lowered, and lowered only inside
    a word. *)
Lemma wordLoop_runes m t r :
  kal !! t = Some r →
  ∃ r', wordLoop words m 0 kal !! t = Some r' ∧ keptOrLowered X r r'.
Proof.
  intros Hr. induction m as [|m IH].
  - exists r. split; [done|by left].
  - destruct IH as (r' & Hr' & Hrel). rewrite wordLoop_S.
    destruct (wordStep_change words m (wordLoop words m 0 kal) t)
      as [->|(wp & Hm & Hwp & Hin & ->)]; [by eauto|].
    rewrite (word_before m wp t Hwp Hin), Hr. simpl.
    exists (ToLower X r). split; [done|]. right. split; [|done].
    destruct (ok_word _ _ _ _ Hok m wp Hwp) as (_ & _ & Hl).
    destruct (Hl t Hin) as (r0 & Hr0 & HL). congruence.
Qed.

End Words.

Lemma decapSentence_length kal : length (decapSentence kal) = length kal.
Proof. apply wordLoop_length. Qed.

Lemma decapSentence_runes kal t r :
  kal !! t = Some r →
  ∃ r', decapSentence kal !! t = Some r' ∧ keptOrLowered X r r'.
Proof. apply wordLoop_runes, tokenize_ok. Qed.

End Sentence.

(** * The document *)

Section Document.

Variable X : UnicodeExt.
Variables exceptions heads : gmap (list Z) bool.

Abbreviation decapSentence' := (decapSentence X exceptions heads).
Abbreviation sentenceStep' := (sentenceStep X exceptions heads).
Abbreviation sentLoop' := (sentLoop X exceptions heads).

Lemma sentenceEnd_bounds rs i : i ≤ length rs → i ≤ sentenceEnd rs i ≤ length rs.
Proof.
  intros Hi. unfold sentenceEnd. split; [apply scanWhile_ge|by apply scanWhile_le].
Qed.

Lemma sentenceNext_bounds rs i :
  i ≤ length rs → sentenceEnd rs i ≤ sentenceNext X rs i ≤ length rs.
Proof.
  intros Hi. pose proof (sentenceEnd_bounds rs i Hi) as Hj. unfold sentenceNext.
  destruct (rs !! sentenceEnd rs i) as [r|] eqn:Hr.
  - apply lookup_lt_Some in Hr. destruct (isSentenceEnd r).
    + pose proof (scanWhile_ge (IsSpace X) rs (S (sentenceEnd rs i))).
      pose proof (scanWhile_le (IsSpace X) rs (S (sentenceEnd rs i))). lia.
    + pose proof (scanWhile_ge (IsSpace X) rs (sentenceEnd rs i)).
      pose proof (scanWhile_le (IsSpace X) rs (sentenceEnd rs i)). lia.
  - pose proof (scanWhile_ge (IsSpace X) rs (sentenceEnd rs i)).
    pose proof (scanWhile_le (IsSpace X) rs (sentenceEnd rs i)). lia.
Qed.

(** A round of the outer loop moves [i] forward. *)
Lemma sentenceNext_progress rs i : i < length rs → i < sentenceNext X rs i.
Proof.
  intros Hi. pose proof (sentenceEnd_bounds rs i ltac:(lia)) as Hj.
  pose proof (sentenceNext_bounds rs i ltac:(lia)) as Hn.
  destruct (decide (i < sentenceEnd rs i)); [lia|].
  assert (sentenceEnd rs i = i) as He by lia.
  destruct (lookup_lt_is_Some_2 rs i Hi) as [r Hr].
  assert (isSentenceEnd r = true) as Hend.
  { assert (negb (isSentenceEnd r) = false) as Hs.
    { apply (scanWhile_stop (fun r => negb (isSentenceEnd r)) rs i).
      fold (sentenceEnd rs i). by rewrite He. }
    by destruct (isSentenceEnd r). }
  unfold sentenceNext. rewrite He, Hr, Hend.
  pose proof (scanWhile_ge (IsSpace X) rs (S i)). lia.
Qed.

Lemma sentenceStep_fst rs i out : fst (sentenceStep' rs i out) = sentenceNext X rs i.
Proof.
  unfold sentenceStep, sentenceNext.
  destruct (rs !! sentenceEnd rs i) as [r|]; [|done]. by destruct (isSentenceEnd r).
Qed.

Lemma sentenceStep_snd rs i out :
  i ≤ length rs →
  snd (sentenceStep' rs i out) =
    out ++ decapSentence' (slice rs i (sentenceEnd rs i))
        ++ slice rs (sentenceEnd rs i) (sentenceNext X rs i).
Proof.
  intros Hi. unfold sentenceStep, sentenceNext.
  destruct (rs !! sentenceEnd rs i) as [r|] eqn:Hr; [|by rewrite <-app_assoc].
  destruct (isSentenceEnd r); simpl; [|by rewrite <-app_assoc].
  rewrite <-!app_assoc. do 2 f_equal.
  set (j := sentenceEnd rs i) in *.
  pose proof (scanWhile_ge (IsSpace X) rs (S j)).
  rewrite <-(slice_app_next rs j (S j)) by lia. f_equal.
  apply list_eq. intros t. rewrite lookup_slice.
  destruct t as [|t]; simpl.
  - case_decide; [|lia]. by rewrite Nat.add_0_r.
  - case_decide; [lia|done].
Qed.

Lemma sentLoop_spec rs fuel i out :
  i ≤ length rs → length out = i → length rs - i ≤ fuel →
  length (sentLoop' fuel rs i out) = length rs ∧
  take i (sentLoop' fuel rs i out) = out ∧
  (∀ si a b, spanLoop X fuel rs i !! si = Some (a, b) →
     i ≤ a ∧ a ≤ b ≤ length rs ∧
     slice (sentLoop' fuel rs i out) a b = decapSentence' (slice rs a b)) ∧
  (∀ t r, i ≤ t → rs !! t = Some r →
     ∃ r', sentLoop' fuel rs i out !! t = Some r' ∧ keptOrLowered X r r').
Proof.
  revert i out. induction fuel as [|fuel IH]; intros i out Hi Hlen Hfuel; simpl.
  - assert (i = length rs) as Hn by lia.
    split; [lia|]. split; [rewrite take_ge; [done|lia]|]. split.
    + intros si a b H. by rewrite lookup_nil in H.
    + intros t r Ht Hr. apply lookup_lt_Some in Hr. lia.
  - destruct (i <? length rs) eqn:Hlt.
    2:{ apply Nat.ltb_ge in Hlt. assert (i = length rs) as Hn by lia.
        split; [lia|]. split; [rewrite take_ge; [done|lia]|]. split.
        - intros si a b H. by rewrite lookup_nil in H.
        - intros t r Ht Hr. apply lookup_lt_Some in Hr. lia. }
    apply Nat.ltb_lt in Hlt.
    destruct (sentenceStep' rs i out) as [i' out'] eqn:Hstep.
    pose proof (sentenceStep_fst rs i out) as Hfst.
    pose proof (sentenceStep_snd rs i out Hi) as Hsnd.
    rewrite Hstep in Hfst, Hsnd. simpl in Hfst, Hsnd.
    pose proof (sentenceEnd_bounds rs i Hi) as Hj.
    pose proof (sentenceNext_bounds rs i Hi) as Hn.
    pose proof (sentenceNext_progress rs i Hlt) as Hp.
    set (j := sentenceEnd rs i) in *. rewrite <-Hfst in *.
    set (kal := slice rs i j) in *.
    assert (length (decapSentence' kal) = j - i) as Hlk.
    { rewrite decapSentence_length. apply length_slice. lia. }
    assert (length out' = i') as Hlen'.
    { rewrite Hsnd, !length_app, Hlk, length_slice by lia. lia. }
    destruct (IH i' out' ltac:(lia) Hlen' ltac:(lia)) as (IH1 & IH2 & IH3 & IH4).
    set (res := sentLoop' fuel rs i' out') in *.
    assert (∀ t, t < i' → res !! t = out' !! t) as Hres.
    { intros t Ht. by rewrite <-IH2, lookup_take_lt. }
    assert (∀ t, i ≤ t < j → res !! t = decapSentence' kal !! (t - i)) as Hin.
    { intros t Ht. rewrite Hres, Hsnd by lia.
      rewrite lookup_app_r by lia. rewrite lookup_app_l by lia. f_equal. lia. }
    assert (∀ t, j ≤ t < i' → res !! t = rs !! t) as Hsep.
    { intros t Ht. rewrite Hres, Hsnd by lia.
      rewrite lookup_app_r by lia. rewrite lookup_app_r by lia.
      rewrite lookup_slice. case_decide; [f_equal|]; lia. }
    split; [done|]. split; [|split].
    + apply list_eq. intros t. rewrite lookup_take.
      case_decide; [|by rewrite lookup_ge_None_2 by lia].
      rewrite Hres, Hsnd by lia. by rewrite lookup_app_l by lia.
    + intros [|si] a b H; simpl in H.
      * injection H as <- <-. split; [lia|]. split; [lia|].
        apply list_eq. intros t. fold j kal.
        rewrite lookup_slice. case_decide.
        -- rewrite Hin by lia. f_equal. lia.
        -- rewrite lookup_ge_None_2; [done|]. lia.
      * destruct (IH3 si a b H) as (? & ? & ?). split; [lia|]. by split.
    + intros t r Ht Hr. destruct (decide (t < i')) as [Hti|Hti]; [|apply IH4; [lia|done]].
      destruct (decide (t < j)) as [Htj|Htj].
      * rewrite Hin by lia.
        apply decapSentence_runes. unfold kal. rewrite lookup_slice.
        case_decide; [|lia]. rewrite <-Hr. f_equal. lia.
      * rewrite Hsep by lia. exists r. split; [done|by left].
Qed.

(** The bound on the rounds is never what ends the outer loop. *)
Lemma sentLoop_fuel rs f1 f2 i out :
  i ≤ length rs → length rs - i ≤ f1 → length rs - i ≤ f2 →
  sentLoop' f1 rs i out = sentLoop' f2 rs i out.
Proof.
  revert f2 i out. induction f1 as [|f1 IH]; intros [|f2] i out Hi H1 H2; simpl.
  - done.
  - assert ((i <? length rs) = false) as -> by (apply Nat.ltb_ge; lia). done.
  - assert ((i <? length rs) = false) as -> by (apply Nat.ltb_ge; lia). done.
  - destruct (i <? length rs) eqn:Hlt; [|done]. apply Nat.ltb_lt in Hlt.
    pose proof (sentenceStep_fst rs i out) as Hfst.
    destruct (sentenceStep' rs i out) as [i' out']. simpl in Hfst. subst i'.
    pose proof (sentenceNext_progress rs i Hlt).
    pose proof (sentenceNext_bounds rs i Hi).
    apply IH; lia.
Qed.

(** The spans the loop visits: each runs from a start to the next terminal
    mark, the first starts the text, and each next one starts where the
    round before it stopped. *)
Lemma spanLoop_elem rs fuel i0 si i j :
  spanLoop X fuel rs i0 !! si = Some (i, j) →
  i < length rs ∧ j = sentenceEnd rs i.
Proof.
  revert i0 si. induction fuel as [|fuel IH]; simpl; intros i0 si H.
  - by rewrite lookup_nil in H.
  - destruct (i0 <? length rs) eqn:Hlt; [|by rewrite lookup_nil in H].
    apply Nat.ltb_lt in Hlt. destruct si as [|si]; simpl in H.
    + by injection H as <- <-.
    + by eapply IH.
Qed.

Lemma spanLoop_first rs fuel i0 :
  i0 < length rs → 0 < fuel →
  spanLoop X fuel rs i0 !! 0 = Some (i0, sentenceEnd rs i0).
Proof.
  intros Hi Hf. destruct fuel as [|fuel]; [lia|]. simpl.
  by assert ((i0 <? length rs) = true) as -> by (by apply Nat.ltb_lt).
Qed.

Lemma spanLoop_next rs fuel i0 si i j :
  i0 ≤ length rs → length rs - i0 ≤ fuel →
  spanLoop X fuel rs i0 !! si = Some (i, j) →
  sentenceNext X rs i < length rs →
  spanLoop X fuel rs i0 !! S si
    = Some (sentenceNext X rs i, sentenceEnd rs (sentenceNext X rs i)).
Proof.
  revert i0 si. induction fuel as [|fuel IH]; simpl; intros i0 si Hi0 Hf H Hn.
  - by rewrite lookup_nil in H.
  - destruct (i0 <? length rs) eqn:Hlt; [|by rewrite lookup_nil in H].
    apply Nat.ltb_lt in Hlt.
    pose proof (sentenceNext_progress rs i0 Hlt) as Hp.
    pose proof (sentenceNext_bounds rs i0 Hi0) as Hb.
    destruct si as [|si]; simpl in H |- *.
    + injection H as <- <-. apply spanLoop_first; [done|lia].
    + apply IH; [lia|lia|done|done].
Qed.

Lemma span_no_terminal s si i j t r :
  sentenceSpans X s !! si = Some (i, j) → i ≤ t < j → s !! t = Some r →
  isSentenceEnd r = false.
Proof.
  intros Hs Ht Hr. apply spanLoop_elem in Hs as [_ ->].
  destruct (scanWhile_all (fun r => negb (isSentenceEnd r)) s i t Ht) as (r0 & Hr0 & Hn).
  assert (r0 = r) as -> by congruence. by destruct (isSentenceEnd r).
Qed.

Lemma span_ends_at_terminal s si i j r :
  sentenceSpans X s !! si = Some (i, j) → s !! j = Some r → isSentenceEnd r = true.
Proof.
  intros Hs Hr. apply spanLoop_elem in Hs as [_ ->].
  apply (scanWhile_stop (fun r => negb (isSentenceEnd r))) in Hr.
  by destruct (isSentenceEnd r).
Qed.

End Document.

(** * Word tokens of the document *)

Section Tokens.

Variable X : UnicodeExt.
Variables exceptions heads : gmap (list Z) bool.

Abbreviation decap := (decapitalizeMidSentence X exceptions heads).

Lemma decap_length s : length (decap s) = length s.
Proof.
  unfold decapitalizeMidSentence.
  by destruct (sentLoop_spec X exceptions heads s (length s) 0 []) as (? & _); [lia|done|lia|].
Qed.

Lemma decap_runes s t r :
  s !! t = Some r → ∃ r', decap s !! t = Some r' ∧ keptOrLowered X r r'.
Proof.
  unfold decapitalizeMidSentence.
  destruct (sentLoop_spec X exceptions heads s (length s) 0 []) as (_ & _ & _ & H);
    [lia|done|lia|].
  apply H. lia.
Qed.

Lemma span_bounds s si i j :
  sentenceSpans X s !! si = Some (i, j) → i ≤ j ≤ length s.
Proof.
  unfold sentenceSpans. intros Hs.
  destruct (sentLoop_spec X exceptions heads s (length s) 0 []) as (_ & _ & H & _);
    [lia|done|lia|].
  destruct (H si i j Hs) as (_ & ? & _). done.
Qed.

Lemma decap_span s si i j :
  sentenceSpans X s !! si = Some (i, j) →
  slice (decap s) i j = decapSentence X exceptions heads (slice s i j).
Proof.
  unfold sentenceSpans, decapitalizeMidSentence. intros Hs.
  destruct (sentLoop_spec X exceptions heads s (length s) 0 []) as (_ & _ & H & _);
    [lia|done|lia|].
  by destruct (H si i j Hs) as (_ & _ & ?).
Qed.

(** A word of a sentence, read in the document and read in the sentence. *)
Lemma token_in_sentence s si i j wi wp :
  sentenceSpans X s !! si = Some (i, j) →
  tokenize X (slice s i j) !! wi = Some wp →
  tokenText s i wp = wordText (slice s i j) wp ∧
  tokenText (decap s) i wp = wordText (decapSentence X exceptions heads (slice s i j)) wp.
Proof.
  intros Hs Hwp. pose proof (span_bounds s si i j Hs) as Hb.
  destruct (ok_word _ _ _ _ (tokenize_ok X (slice s i j)) wi wp Hwp) as (_ & He & _).
  rewrite length_slice in He by lia.
  unfold tokenText, wordText. split.
  - rewrite slice_slice; [done|lia].
  - rewrite <-(decap_span s si i j Hs). rewrite slice_slice; [done|lia].
Qed.

End Tokens.

(** * The decapitalization engine: what is kept and what is lowered *)

Section Classes.

Variable X : UnicodeExt.

Lemma allCapsLoop_true has l :
  (∀ r, r ∈ l → IsLetter X r = true → IsUpper X r = true) →
  has = true ∨ (∃ r, r ∈ l ∧ IsLetter X r = true) →
  allCapsLoop X has l = true.
Proof.
  revert has. induction l as [|r0 l IH]; simpl; intros has Hup Hhas.
  - destruct Hhas as [|(r & Hr & _)]; [done|]. by apply elem_of_nil in Hr.
  - destruct (IsLetter X r0) eqn:HL.
    + rewrite (Hup r0) by (done || constructor). apply IH; [|by left].
      intros r Hr. apply Hup. by constructor.
    + apply IH.
      * intros r Hr. apply Hup. by constructor.
      * destruct Hhas as [|(r & Hr & HLr)]; [by left|]. right.
        apply elem_of_cons in Hr as [->|Hr]; [congruence|eauto].
Qed.

Lemma isAllCaps_true l :
  (∃ r, r ∈ l ∧ IsLetter X r = true) →
  (∀ r, r ∈ l → IsLetter X r = true → IsUpper X r = true) →
  isAllCaps X l = true.
Proof. intros Hhas Hup. apply allCapsLoop_true; [done|by right]. Qed.

(** The converse: an all-caps word has a letter and no letter that is not
    upper case. *)
Lemma allCapsLoop_inv has l :
  allCapsLoop X has l = true →
  (has = true ∨ ∃ r, r ∈ l ∧ IsLetter X r = true) ∧
  (∀ r, r ∈ l → IsLetter X r = true → IsUpper X r = true).
Proof.
  revert has. induction l as [|r0 l IH]; simpl; intros has H.
  - split; [by left|]. intros r Hr. by apply elem_of_nil in Hr.
  - destruct (IsLetter X r0) eqn:HL.
    + destruct (IsUpper X r0) eqn:HU; [|done]. destruct (IH _ H) as [_ Hup]. split.
      * right. exists r0. split; [constructor|done].
      * intros r Hr. apply elem_of_cons in Hr as [->|Hr]; [done|by apply Hup].
    + destruct (IH _ H) as [Hhas Hup]. split.
      * destruct Hhas as [|(r & Hr & HLr)]; [by left|]. right. exists r.
        split; [by constructor|done].
      * intros r Hr. apply elem_of_cons in Hr as [->|Hr]; [congruence|by apply Hup].
Qed.

End Classes.

Section Engine_claims.

Variable X : UnicodeExt.
Variables exceptions heads : gmap (list Z) bool.

Abbreviation decap' := (decapitalizeMidSentence X exceptions heads).

(** A word that is all upper case or in the exception map is kept, at any
    index. *)
Lemma skipped_token_kept s si i j wi wp :
  sentenceSpans X s !! si = Some (i, j) →
  tokenize X (slice s i j) !! wi = Some wp →
  isAllCaps X (tokenText s i wp) || lookupBool exceptions (tokenText s i wp) = true →
  tokenText (decap' s) i wp = tokenText s i wp.
Proof.
  intros Hs Hwp Hc.
  destruct (token_in_sentence X exceptions heads s si i j wi wp Hs Hwp) as [Hin Hout].
  rewrite Hout, Hin. rewrite Hin in Hc.
  by apply (final_skip X exceptions heads _ _ (tokenize_ok X (slice s i j)) wi wp).
Qed.

(** The word after a head is kept; the head is read as the engine has left
    it in the output. *)
Lemma successor_of_head_kept s si i j wi pp wp :
  sentenceSpans X s !! si = Some (i, j) →
  tokenize X (slice s i j) !! wi = Some pp →
  tokenize X (slice s i j) !! S wi = Some wp →
  lookupBool heads (tokenText (decap' s) i pp) = true →
  tokenText (decap' s) i wp = tokenText s i wp.
Proof.
  intros Hs Hpp Hwp Hh.
  destruct (token_in_sentence X exceptions heads s si i j (S wi) wp Hs Hwp) as [Hin Hout].
  destruct (token_in_sentence X exceptions heads s si i j wi pp Hs Hpp) as [_ Hpout].
  rewrite Hout, Hin. rewrite Hpout in Hh.
  by apply (final_protected X exceptions heads _ _ (tokenize_ok X (slice s i j)) wi pp wp).
Qed.

(** Any other word after word 0 is lowered when it is in title case, and
    kept when it is not. *)
Lemma unprotected_token s si i j wi pp wp :
  sentenceSpans X s !! si = Some (i, j) →
  tokenize X (slice s i j) !! wi = Some pp →
  tokenize X (slice s i j) !! S wi = Some wp →
  isAllCaps X (tokenText s i wp) || lookupBool exceptions (tokenText s i wp) = false →
  lookupBool heads (tokenText (decap' s) i pp) = false →
  tokenText (decap' s) i wp =
    if isTitleCase X (tokenText s i wp) then map (ToLower X) (tokenText s i wp)
    else tokenText s i wp.
Proof.
  intros Hs Hpp Hwp Hc Hh.
  destruct (token_in_sentence X exceptions heads s si i j (S wi) wp Hs Hwp) as [Hin Hout].
  destruct (token_in_sentence X exceptions heads s si i j wi pp Hs Hpp) as [_ Hpout].
  rewrite Hout, Hin. rewrite Hin in Hc. rewrite Hpout in Hh.
  by apply (final_lower X exceptions heads _ _ (tokenize_ok X (slice s i j)) wi pp wp).
Qed.

(** The runes of a word are letters. *)
Lemma token_letters s si i j wi wp r :
  sentenceSpans X s !! si = Some (i, j) →
  tokenize X (slice s i j) !! wi = Some wp →
  r ∈ tokenText s i wp → IsLetter X r = true.
Proof.
  intros Hs Hwp Hr.
  destruct (token_in_sentence X exceptions heads s si i j wi wp Hs Hwp) as [Hin _].
  rewrite Hin in Hr. apply list_elem_of_lookup in Hr as [t Ht].
  unfold wordText in Ht. rewrite lookup_slice in Ht. case_decide; [|done].
  destruct (ok_word _ _ _ _ (tokenize_ok X (slice s i j)) wi wp Hwp) as (_ & _ & Hl).
  destruct (Hl (wp_start wp + t)) as (r0 & Hr0 & HL); [unfold inSpan; lia|]. congruence.
Qed.

(** C4: in every sentence span the engine visits, the word at index 0 reads
    in the output as in the input, whatever its case shape. *)
Theorem first_word_never_rewritten s si i j wp :
  sentenceSpans X s !! si = Some (i, j) →
  tokenize X (slice s i j) !! 0 = Some wp →
  tokenText (decapitalizeMidSentence X exceptions heads s) i wp = tokenText s i wp.
Proof.
  intros Hs Hwp.
  destruct (token_in_sentence X exceptions heads s si i j 0 wp Hs Hwp) as [Hin Hout].
  rewrite Hout, Hin.
  by apply (final_first X exceptions heads _ _ (tokenize_ok X (slice s i j)) wp).
Qed.

(** C5: a word, at any index of any sentence, that has a letter and whose
    letters are all upper case reads in the output as in the input. *)
Theorem all_caps_token_kept s si i j wi wp :
  sentenceSpans X s !! si = Some (i, j) →
  tokenize X (slice s i j) !! wi = Some wp →
  (∃ r, r ∈ tokenText s i wp ∧ IsLetter X r = true) →
  (∀ r, r ∈ tokenText s i wp → IsLetter X r = true → IsUpper X r = true) →
  tokenText (decapitalizeMidSentence X exceptions heads s) i wp = tokenText s i wp.
Proof.
  intros Hs Hwp Hhas Hup. apply (skipped_token_kept s si i j wi wp Hs Hwp).
  by rewrite isAllCaps_true.
Qed.

(** C10: the output has as many runes as the input, and each rune of the
    output is the input rune at that index or, where that one is a letter,
    its lower-case form; a rune that is not a letter is copied as it is. *)
Theorem decapitalize_keeps_or_lowers s :
  length (decapitalizeMidSentence X exceptions heads s) = length s ∧
  Forall2 (λ r r', r' = r ∨ (IsLetter X r = true ∧ r' = ToLower X r))
    s (decapitalizeMidSentence X exceptions heads s).
Proof.
  split; [apply decap_length|].
  apply Forall2_same_length_lookup. split; [by rewrite decap_length|].
  intros t r r' Hr Hr'.
  destruct (decap_runes X exceptions heads s t r Hr) as (r0 & Hr0 & Hrel).
  assert (r0 = r') as -> by congruence. done.
Qed.

(** C3, as amended: a word made of one upper-case letter passes the
    title-case test and the all-caps test; the all-caps test comes first,
    so the engine keeps the letter, at any index. *)
Theorem single_upper_letter_kept s si i j wi wp r :
  sentenceSpans X s !! si = Some (i, j) →
  tokenize X (slice s i j) !! wi = Some wp →
  tokenText s i wp = [r] →
  IsUpper X r = true →
  isTitleCase X [r] = true ∧ isAllCaps X [r] = true ∧
  tokenText (decapitalizeMidSentence X exceptions heads s) i wp = [r].
Proof.
  intros Hs Hwp Htxt Hup.
  assert (IsLetter X r = true) as HL.
  { apply (token_letters s si i j wi wp r Hs Hwp). rewrite Htxt. constructor. }
  assert (isAllCaps X [r] = true) as Hcaps.
  { unfold isAllCaps. simpl. by rewrite HL, Hup. }
  split; [by simpl; rewrite Hup|]. split; [done|].
  transitivity (tokenText s i wp); [|done].
  apply (skipped_token_kept s si i j wi wp Hs Hwp). by rewrite Htxt, Hcaps.
Qed.

End Engine_claims.

(** C6: a word whose text is a key of the exception map reads in the output
    as in the input, at any index of any sentence and whatever stands
    before or after it. *)
Theorem exception_token_kept X heads s si i j wi wp :
  sentenceSpans X s !! si = Some (i, j) →
  tokenize X (slice s i j) !! wi = Some wp →
  defaultExceptions !! tokenText s i wp = Some true →
  tokenText (decapitalizeMidSentence X defaultExceptions heads s) i wp = tokenText s i wp.
Proof.
  intros Hs Hwp Hex. apply (skipped_token_kept X _ _ s si i j wi wp Hs Hwp).
  unfold lookupBool. rewrite Hex. simpl. apply orb_true_r.
Qed.

(** * IsSentenceCapitalized *)

Section Capitalized.

Variable X : UnicodeExt.

Abbreviation isSpaceP := (λ r, IsSpace X r = true).
Abbreviation nonLetterP := (λ r, IsLetter X r = false).

Lemma trimLeft_spec l : ∃ a, l = a ++ trimLeft X l ∧ Forall isSpaceP a.
Proof.
  induction l as [|r l (a & Ha & Hsp)]; simpl; [by exists []|].
  destruct (IsSpace X r) eqn:Hr; [|by exists []].
  exists (r :: a). split; [by rewrite Ha at 1|by constructor].
Qed.

Lemma TrimSpace_spec s :
  ∃ a b, s = a ++ TrimSpace X s ++ b ∧ Forall isSpaceP a ∧ Forall isSpaceP b.
Proof.
  unfold TrimSpace. destruct (trimLeft_spec s) as (a & Ha & Hsa).
  destruct (trimLeft_spec (reverse (trimLeft X s))) as (b & Hb & Hsb).
  exists a, (reverse b). split; [|split; [done|by apply Forall_reverse]].
  rewrite Ha at 1. f_equal.
  rewrite <-reverse_app, <-Hb. by rewrite reverse_involutive.
Qed.

Lemma firstLetter_None l : firstLetter X l = None ↔ Forall nonLetterP l.
Proof.
  induction l as [|r l IH]; simpl; [by split; [constructor|]|].
  destruct (IsLetter X r) eqn:Hr.
  - split; [done|]. intros H. apply Forall_cons in H as [H _]. congruence.
  - rewrite IH. split; [by constructor|]. intros H. by apply Forall_cons in H as [_ H].
Qed.

Lemma firstLetter_Some l r :
  firstLetter X l = Some r ↔
  ∃ pre post, l = pre ++ r :: post ∧ Forall nonLetterP pre ∧ IsLetter X r = true.
Proof.
  induction l as [|r0 l IH]; simpl.
  - split; [done|]. intros (pre & post & H & _). by destruct pre.
  - destruct (IsLetter X r0) eqn:Hr0.
    + split.
      * intros [= ->]. by exists [], l.
      * intros (pre & post & H & Hpre & Hr). destruct pre as [|q pre]; simpl in H.
        -- by injection H as -> _.
        -- injection H as -> _. apply Forall_cons in Hpre as [Hq _]. congruence.
    + rewrite IH. split.
      * intros (pre & post & -> & Hpre & Hr). exists (r0 :: pre), post.
        split; [done|]. split; [by constructor|done].
      * intros (pre & post & H & Hpre & Hr). destruct pre as [|q pre]; simpl in H.
        -- injection H as -> _. congruence.
        -- injection H as -> ->. apply Forall_cons in Hpre as [_ Hpre]. by exists pre, post.
Qed.

Lemma firstLetter_app l b :
  firstLetter X (l ++ b) =
    match firstLetter X l with Some r => Some r | None => firstLetter X b end.
Proof. induction l as [|r l IH]; simpl; [done|]. by destruct (IsLetter X r). Qed.

Lemma findLetter_spec l i :
  match findLetter X l i with
  | Some k => i ≤ k ∧ ∃ r, l !! (k - i) = Some r ∧ firstLetter X l = Some r
  | None => firstLetter X l = None
  end.
Proof.
  revert i. induction l as [|r l IH]; simpl; intros i; [done|].
  destruct (IsLetter X r) eqn:Hr.
  - split; [lia|]. exists r. by rewrite Nat.sub_diag.
  - specialize (IH (S i)). destruct (findLetter X l (S i)) as [k|]; [|done].
    destruct IH as (Hk & r0 & Hr0 & Hf). split; [lia|]. exists r0. split; [|done].
    replace (k - i) with (S (k - S i)) by lia. done.
Qed.

(** The function reads the first letter of the trimmed text. *)
Lemma IsSentenceCapitalized_trimmed s :
  IsSentenceCapitalized X s =
    match firstLetter X (TrimSpace X s) with
    | Some r => IsUpper X r
    | None => true
    end.
Proof.
  unfold IsSentenceCapitalized, firstLetterIndex.
  destruct (TrimSpace X s) as [|c t] eqn:Ht; [done|].
  rewrite drop_0. pose proof (findLetter_spec (c :: t) 0) as H.
  destruct (findLetter X (c :: t) 0) as [k|].
  - destruct H as (_ & r & Hr & ->). rewrite Nat.sub_0_r in Hr. by rewrite Hr.
  - by rewrite H.
Qed.

Hypothesis space_not_letter : ∀ r, IsSpace X r = true → IsLetter X r = false.

Lemma spaces_no_letter a : Forall isSpaceP a → Forall nonLetterP a.
Proof. intros H. eapply Forall_impl; [done|]. intros r. apply space_not_letter. Qed.

(** Trimming does not change which letter comes first. *)
Lemma firstLetter_TrimSpace s : firstLetter X (TrimSpace X s) = firstLetter X s.
Proof.
  destruct (TrimSpace_spec s) as (a & b & Hs & Ha & Hb). rewrite Hs at 2.
  rewrite firstLetter_app.
  assert (firstLetter X a = None) as -> by (by apply firstLetter_None, spaces_no_letter).
  rewrite firstLetter_app.
  assert (firstLetter X b = None) as -> by (by apply firstLetter_None, spaces_no_letter).
  by destruct (firstLetter X (TrimSpace X s)).
Qed.

Lemma IsSentenceCapitalized_firstLetter s :
  IsSentenceCapitalized X s =
    match firstLetter X s with Some r => IsUpper X r | None => true end.
Proof. by rewrite IsSentenceCapitalized_trimmed, firstLetter_TrimSpace. Qed.

End Capitalized.

(** C9, as amended: [IsSentenceCapitalized] is true on an empty or
    white-space-only text and on a text without any letter; on a text with
    a letter it is true exactly when the first letter is upper case.  That
    no white-space rune is a letter holds of the Unicode tables. *)
Theorem IsSentenceCapitalized_spec X s :
  (∀ r, IsSpace X r = true → IsLetter X r = false) →
  (TrimSpace X s = [] → IsSentenceCapitalized X s = true) ∧
  (IsSentenceCapitalized X s = true ↔
     (∀ r, r ∈ s → IsLetter X r = false) ∨
     (∃ pre r post, s = pre ++ r :: post ∧ (∀ q, q ∈ pre → IsLetter X q = false) ∧
        IsLetter X r = true ∧ IsUpper X r = true)).
Proof.
  intros Hlaw. split.
  - intros Ht. unfold IsSentenceCapitalized. by rewrite Ht.
  - rewrite (IsSentenceCapitalized_firstLetter X Hlaw).
    destruct (firstLetter X s) as [r|] eqn:Hf.
    + apply firstLetter_Some in Hf as (pre & post & Hs & Hpre & Hr). split.
      * intros Hup. right. exists pre, r, post.
        split; [done|]. split; [by apply Forall_forall|done].
      * intros [Hno|(pre' & r' & post' & Hs' & Hpre' & Hr' & Hup)].
        -- rewrite Hno in Hr; [done|]. rewrite Hs. apply elem_of_app. right. constructor.
        -- assert (firstLetter X s = Some r') as H1.
           { apply firstLetter_Some. exists pre', post'. by rewrite Forall_forall. }
           assert (firstLetter X s = Some r) as H2.
           { apply firstLetter_Some. by exists pre, post. }
           congruence.
    + split; [|done]. intros _. left. apply firstLetter_None in Hf.
      by apply Forall_forall.
Qed.

Lemma asciiOnly_space_not_letter r :
  IsSpace asciiOnly r = true → IsLetter asciiOnly r = false.
Proof.
  unfold IsSpace, IsLetter. destruct (isASCII r); [|done].
  unfold asciiSpace, asciiLetter, asciiUpper, asciiLower, inRange. lia.
Qed.

(** * The scenarios, run on the code *)

(** C1: in "Saya ke Jalan Sudirman" the head "Jalan" is the word at index 2
    and the title-case word "Sudirman" the one at index 3.  The engine
    lowers the head first and looks the lowered text up in the head map, so
    the word after the head is lowered as well. *)
Theorem lowered_head_does_not_protect X :
  sentenceSpans X street !! 0 = Some (0, 22) ∧
  tokenize X (slice street 0 22) !! 2 = Some {| wp_start := 8; wp_end := 13 |} ∧
  tokenText street 0 {| wp_start := 8; wp_end := 13 |} = runes "Jalan" ∧
  protectedHeads !! runes "Jalan" = Some true ∧
  tokenize X (slice street 0 22) !! 3 = Some {| wp_start := 14; wp_end := 22 |} ∧
  tokenText street 0 {| wp_start := 14; wp_end := 22 |} = runes "Sudirman" ∧
  isTitleCase X (runes "Sudirman") = true ∧
  decapitalizeMidSentence X defaultExceptions protectedHeads street
    = runes "Saya ke jalan sudirman" ∧
  SanitizeToPUEBI X street = runes "Saya ke jalan sudirman".
Proof. vm_compute. repeat split. Qed.

(** At index 0 the same head is kept and does protect the next word. *)
Lemma head_at_index_0_protects X :
  decapitalizeMidSentence X defaultExceptions protectedHeads (runes "Jalan Sudirman Raya")
    = runes "Jalan Sudirman raya".
Proof. vm_compute. reflexivity. Qed.

(** C2: on "Hai luqmanul hakim," the greeting rule alone gives
    "Hai Luqmanul Hakim,", as its comment says; the decapitalization pass
    that follows keeps "Luqmanul", which stands after the head "Hai", and
    lowers "Hakim" again, so the pipeline returns "Hai Luqmanul hakim,". *)
Theorem greeting_second_name_lowered X :
  fixGreetingNameCase X greeting = runes "Hai Luqmanul Hakim," ∧
  decapitalizeMidSentence X defaultExceptions protectedHeads (runes "Hai Luqmanul Hakim,")
    = runes "Hai Luqmanul hakim," ∧
  SanitizeToPUEBI X greeting = runes "Hai Luqmanul hakim,".
Proof. vm_compute. repeat split. Qed.

(** C3 fails as stated: in "Saya A" the word at index 1 is the single
    upper-case letter "A"; it is in title case, not an exception and not
    after a head, and the engine keeps it. *)
Lemma single_upper_letter_not_lowered :
  tokenize asciiOnly (runes "Saya A") !! 1 = Some {| wp_start := 5; wp_end := 6 |} ∧
  tokenText (runes "Saya A") 0 {| wp_start := 5; wp_end := 6 |} = runes "A" ∧
  isTitleCase asciiOnly (runes "A") = true ∧
  lookupBool defaultExceptions (runes "A") = false ∧
  lookupBool protectedHeads (runes "Saya") = false ∧
  decapitalizeMidSentence asciiOnly defaultExceptions protectedHeads (runes "Saya A")
    = runes "Saya A".
Proof. vm_compute. repeat split. Qed.

Lemma single_upper_letter_kept_witness :
  sentenceSpans asciiOnly (runes "Saya A") !! 0 = Some (0, 6) ∧
  tokenText (decapitalizeMidSentence asciiOnly defaultExceptions protectedHeads (runes "Saya A"))
    0 {| wp_start := 5; wp_end := 6 |} = [65%Z].
Proof.
  split; [reflexivity|].
  apply (single_upper_letter_kept asciiOnly defaultExceptions protectedHeads
           (runes "Saya A") 0 0 6 1 {| wp_start := 5; wp_end := 6 |} 65%Z);
    reflexivity.
Defined.

Lemma first_word_never_rewritten_witness :
  sentenceSpans asciiOnly (runes "Halo Dunia. Apa Kabar") !! 1 = Some (12, 21) ∧
  tokenize asciiOnly (slice (runes "Halo Dunia. Apa Kabar") 12 21) !! 0
    = Some {| wp_start := 0; wp_end := 3 |} ∧
  tokenText (decapitalizeMidSentence asciiOnly defaultExceptions protectedHeads
               (runes "Halo Dunia. Apa Kabar")) 12 {| wp_start := 0; wp_end := 3 |}
    = tokenText (runes "Halo Dunia. Apa Kabar") 12 {| wp_start := 0; wp_end := 3 |}.
Proof.
  split; [reflexivity|]. split; [reflexivity|].
  apply (first_word_never_rewritten asciiOnly defaultExceptions protectedHeads
           (runes "Halo Dunia. Apa Kabar") 1 12 21); reflexivity.
Defined.

Lemma all_caps_token_kept_witness :
  tokenText (decapitalizeMidSentence asciiOnly defaultExceptions protectedHeads
               (runes "Kartu ATM Anda")) 0 {| wp_start := 6; wp_end := 9 |}
    = runes "ATM".
Proof.
  apply (all_caps_token_kept asciiOnly defaultExceptions protectedHeads
           (runes "Kartu ATM Anda") 0 0 14 1 {| wp_start := 6; wp_end := 9 |}).
  - reflexivity.
  - reflexivity.
  - exists 65%Z. split; [|reflexivity]. vm_compute. constructor.
  - intros r Hr _. vm_compute in Hr.
    repeat (apply elem_of_cons in Hr as [->|Hr]; [reflexivity|]).
    by apply elem_of_nil in Hr.
Defined.

Lemma exception_token_kept_witness :
  tokenText (decapitalizeMidSentence asciiOnly defaultExceptions protectedHeads
               (runes "Hubungi Call Center 1500 035.")) 0 {| wp_start := 13; wp_end := 19 |}
    = runes "Center".
Proof.
  apply (exception_token_kept asciiOnly protectedHeads
           (runes "Hubungi Call Center 1500 035.") 0 0 28 2
           {| wp_start := 13; wp_end := 19 |}); reflexivity.
Defined.

(** C7 fails as stated: "A rp. 5 Budi" has two sentences for the first run,
    which keeps "Budi" as the first word of the second; the currency rule
    then removes the full stop, and the second run lowers "Budi". *)
Lemma sanitize_twice_differs :
  SanitizeToPUEBI asciiOnly amount = runes "A Rp5 Budi" ∧
  SanitizeToPUEBI asciiOnly (SanitizeToPUEBI asciiOnly amount) = runes "A Rp5 budi".
Proof. vm_compute. split; reflexivity. Qed.

(** C7, as amended: [SanitizeToPUEBI] is idempotent on every empty or
    white-space-only text and on the texts of the scenarios: the sentence
    of [main.go], "Hai luqmanul hakim,", "dirumah saya" and
    "Hubungi Call Center 1500 035.". *)
Theorem sanitize_idempotent_on_scenarios X :
  (∀ x, TrimSpace X x = [] →
        SanitizeToPUEBI X (SanitizeToPUEBI X x) = SanitizeToPUEBI X x) ∧
  Forall (λ x, SanitizeToPUEBI X (SanitizeToPUEBI X x) = SanitizeToPUEBI X x)
    [demo; greeting; runes "dirumah saya"; runes "Hubungi Call Center 1500 035."].
Proof.
  split.
  - intros x Hx. unfold SanitizeToPUEBI at 2 3. rewrite Hx.
    unfold SanitizeToPUEBI. by rewrite Hx.
  - repeat constructor; vm_compute; reflexivity.
Qed.

Lemma sanitize_idempotent_on_scenarios_witness :
  TrimSpace asciiOnly (runes "  ") = [] ∧
  SanitizeToPUEBI asciiOnly (SanitizeToPUEBI asciiOnly (runes "  "))
    = SanitizeToPUEBI asciiOnly (runes "  ").
Proof.
  split; [reflexivity|].
  apply (proj1 (sanitize_idempotent_on_scenarios asciiOnly)). reflexivity.
Defined.

(** C8 fails as stated: the quoted text starts with three full stops, so
    "Transfer" holds the first letter of the text and of its sentence; the
    phrase rule lowers it, [capitalizeSentences] raises it again and the
    engine keeps it as a first word. *)
Lemma transfer_after_dots_stays_capitalised :
  SanitizeToPUEBI asciiOnly quoted
    = runes "... Transfer real time dari rekening 1023613267 sejumlah Rp12.000 ..." ∧
  isInfixOf (runes "transfer real time") (SanitizeToPUEBI asciiOnly quoted) = false.
Proof. vm_compute. split; reflexivity. Qed.

(** C8, as amended: on the sentence [main.go] passes in, of which the
    scenario quotes the middle, "Transfer" stands in the middle of a
    sentence and the output reads "transfer real time" and "Rp12.000", with
    nothing between "Rp" and the digits.  On the quoted text itself the
    output has "real time" lowered and "Rp12.000" as well. *)
Theorem transfer_real_time_scenario X :
  isInfixOf (runes "Transfer Real Time dari rekening 1023613267 sejumlah Rp 12.000.") demo
    = true ∧
  SanitizeToPUEBI X demo = demoOut ∧
  isInfixOf (runes "transfer real time") (SanitizeToPUEBI X demo) = true ∧
  isInfixOf (runes "Rp12.000") (SanitizeToPUEBI X demo) = true ∧
  isInfixOf (runes "Rp 12") (SanitizeToPUEBI X demo) = false ∧
  isInfixOf (runes "real time") (SanitizeToPUEBI X quoted) = true ∧
  isInfixOf (runes "Rp12.000") (SanitizeToPUEBI X quoted) = true.
Proof. vm_compute. repeat split. Qed.

(** C9 fails as stated: "123" is not blank and has no letter, so no first
    letter that is upper case, and the function returns true. *)
Lemma no_letter_counts_as_capitalized :
  TrimSpace asciiOnly (runes "123") = runes "123" ∧
  firstLetterIndex asciiOnly (runes "123") 0 = None ∧
  IsSentenceCapitalized asciiOnly (runes "123") = true.
Proof. vm_compute. repeat split. Qed.

Lemma IsSentenceCapitalized_spec_witness :
  IsSentenceCapitalized asciiOnly (runes " (halo)") = true ↔
    (∀ r, r ∈ runes " (halo)" → IsLetter asciiOnly r = false) ∨
    (∃ pre r post, runes " (halo)" = pre ++ r :: post ∧
       (∀ q, q ∈ pre → IsLetter asciiOnly q = false) ∧
       IsLetter asciiOnly r = true ∧ IsUpper asciiOnly r = true).
Proof.
  exact (proj2 (IsSentenceCapitalized_spec asciiOnly (runes " (halo)")
                  asciiOnly_space_not_letter)).
Defined.

(** * More on the engine: tokens, spans and the decision rule *)

Section Engine_more.

Variable X : UnicodeExt.

Lemma titleTail_true l :
  titleTail X l = true ↔ ∀ q, q ∈ l → IsLetter X q = true → IsLower X q = true.
Proof.
  induction l as [|r l IH]; simpl.
  - split; [|done]. intros _ q Hq. by apply elem_of_nil in Hq.
  - destruct (IsLetter X r) eqn:HL; destruct (IsLower X r) eqn:Hlow; simpl.
    + rewrite IH. split.
      * intros H q Hq. apply elem_of_cons in Hq as [->|Hq]; [done|by apply H].
      * intros H q Hq. apply H. by constructor.
    + split; [done|]. intros H. rewrite (H r) in Hlow; [done|constructor|done].
    + rewrite IH. split.
      * intros H q Hq. apply elem_of_cons in Hq as [->|Hq]; [done|by apply H].
      * intros H q Hq. apply H. by constructor.
    + rewrite IH. split.
      * intros H q Hq. apply elem_of_cons in Hq as [->|Hq]; [congruence|by apply H].
      * intros H q Hq. apply H. by constructor.
Qed.

(** X1: the two case tests of the engine.  A word is all caps exactly when
    it has a letter and each of its letters is upper case; it is in title
    case exactly when its first rune is upper case and each letter after it
    is lower case. *)
Theorem word_case_tests l :
  (isAllCaps X l = true ↔
     (∃ r, r ∈ l ∧ IsLetter X r = true) ∧
     (∀ r, r ∈ l → IsLetter X r = true → IsUpper X r = true)) ∧
  (isTitleCase X l = true ↔
     ∃ r tl, l = r :: tl ∧ IsUpper X r = true ∧
       ∀ q, q ∈ tl → IsLetter X q = true → IsLower X q = true).
Proof.
  split.
  - split.
    + intros H. destruct (allCapsLoop_inv X false l H) as [[|Hhas] Hup]; [done|by split].
    + intros [Hhas Hup]. by apply isAllCaps_true.
  - destruct l as [|r tl]; simpl.
    + split; [done|]. by intros (r & tl & H & _).
    + destruct (IsUpper X r) eqn:Hup.
      * rewrite titleTail_true. split.
        -- intros H. by exists r, tl.
        -- intros (r' & tl' & [= <- <-] & _ & H). done.
      * split; [done|]. intros (r' & tl' & [= <- <-] & Hup' & _). congruence.
Qed.

(** X2: a word of a sentence is a maximal run of letters.  Its span is not
    empty and lies in the sentence, every rune in it is a letter, the rune
    after it and the rune before it (where there is one) are not letters,
    and every later word starts strictly after its end. *)
Theorem token_is_maximal_letter_run kal i wp :
  tokenize X kal !! i = Some wp →
  wp_start wp < wp_end wp ∧ wp_end wp ≤ length kal ∧
  (∀ t, wp_start wp ≤ t < wp_end wp → ∃ r, kal !! t = Some r ∧ IsLetter X r = true) ∧
  (∀ r, kal !! wp_end wp = Some r → IsLetter X r = false) ∧
  (∀ t r, S t = wp_start wp → kal !! t = Some r → IsLetter X r = false) ∧
  (∀ j wpj, i < j → tokenize X kal !! j = Some wpj → wp_end wp < wp_start wpj).
Proof.
  intros Hwp. pose proof (tokenize_ok X kal) as Hok.
  destruct (ok_word _ _ _ _ Hok i wp Hwp) as (Hne & Hend & Hl).
  destruct (tokenize_maximal X kal i wp Hwp) as (Hstop & Hbefore).
  split; [done|]. split; [done|]. split; [exact Hl|]. split; [done|]. split; [done|].
  intros j wpj Hij Hj.
  { pose proof (ok_order _ _ _ _ Hok i j wp wpj Hij Hwp Hj) as Hle.
    destruct (decide (wp_end wp = wp_start wpj)) as [He|]; [|lia]. exfalso.
    destruct (ok_word _ _ _ _ Hok j wpj Hj) as (Hnej & _ & Hlj).
    destruct (Hlj (wp_start wpj)) as (r & Hr & HL); [unfold inSpan; lia|].
    rewrite <-He in Hr. rewrite (Hstop r Hr) in HL. done. }
Qed.

(** X3: every letter of a sentence lies in exactly one word. *)
Theorem every_letter_in_one_token kal t r :
  kal !! t = Some r → IsLetter X r = true →
  ∃ i wp, tokenize X kal !! i = Some wp ∧ wp_start wp ≤ t < wp_end wp ∧
    ∀ j wpj, tokenize X kal !! j = Some wpj → wp_start wpj ≤ t < wp_end wpj → j = i.
Proof.
  intros Hr HL. destruct (tokenize_cover X kal t r Hr HL) as (i & wp & Hwp & Hin).
  exists i, wp. split; [done|]. split; [done|].
  intros j wpj Hj Hinj.
  by apply (words_apart X kal (tokenize X kal) (tokenize_ok X kal) j i wpj wp t).
Qed.

End Engine_more.

Lemma token_is_maximal_letter_run_witness :
  wp_start {| wp_start := 3; wp_end := 8 |} < wp_end {| wp_start := 3; wp_end := 8 |} ∧
  wp_end {| wp_start := 3; wp_end := 8 |} ≤ length (runes "ke Jalan 5").
Proof.
  pose proof (token_is_maximal_letter_run asciiOnly (runes "ke Jalan 5") 1
                {| wp_start := 3; wp_end := 8 |} eq_refl) as H.
  split; [exact (proj1 H)|exact (proj1 (proj2 H))].
Defined.

Lemma every_letter_in_one_token_witness :
  ∃ i wp, tokenize asciiOnly (runes "ke Jalan 5") !! i = Some wp ∧
    wp_start wp ≤ 4 < wp_end wp ∧
    ∀ j wpj, tokenize asciiOnly (runes "ke Jalan 5") !! j = Some wpj →
      wp_start wpj ≤ 4 < wp_end wpj → j = i.
Proof.
  apply (every_letter_in_one_token asciiOnly (runes "ke Jalan 5") 4 97%Z); reflexivity.
Defined.

Section Engine_rules.

Variable X : UnicodeExt.
Variables exceptions heads : gmap (list Z) bool.

Abbreviation engine := (decapitalizeMidSentence X exceptions heads).

(** The rule for a word after word 0, in one equation. *)
Lemma token_rule s si i j wi pp wp :
  sentenceSpans X s !! si = Some (i, j) →
  tokenize X (slice s i j) !! wi = Some pp →
  tokenize X (slice s i j) !! S wi = Some wp →
  tokenText (engine s) i wp =
    if isAllCaps X (tokenText s i wp) || lookupBool exceptions (tokenText s i wp)
    then tokenText s i wp
    else if lookupBool heads (tokenText (engine s) i pp) then tokenText s i wp
    else if isTitleCase X (tokenText s i wp) then map (ToLower X) (tokenText s i wp)
    else tokenText s i wp.
Proof.
  intros Hs Hpp Hwp.
  destruct (isAllCaps X (tokenText s i wp) || lookupBool exceptions (tokenText s i wp))
    eqn:Hc.
  { by apply (skipped_token_kept X exceptions heads s si i j (S wi) wp). }
  destruct (lookupBool heads (tokenText (engine s) i pp)) eqn:Hh.
  { by apply (successor_of_head_kept X exceptions heads s si i j wi pp wp). }
  by apply (unprotected_token X exceptions heads s si i j wi pp wp).
Qed.

(** X4: the decision rule of the engine for the word at index wi+1 of a
    sentence.  It is kept if it is all caps or an exception; else kept if
    the word before it, as the engine has left it, is a head; else lowered
    rune by rune if it is in title case; else kept. *)
Theorem engine_decision_rule s si i j wi pp wp :
  sentenceSpans X s !! si = Some (i, j) →
  tokenize X (slice s i j) !! wi = Some pp →
  tokenize X (slice s i j) !! S wi = Some wp →
  tokenText (decapitalizeMidSentence X exceptions heads s) i wp =
    if isAllCaps X (tokenText s i wp) || lookupBool exceptions (tokenText s i wp)
    then tokenText s i wp
    else if lookupBool heads
              (tokenText (decapitalizeMidSentence X exceptions heads s) i pp)
    then tokenText s i wp
    else if isTitleCase X (tokenText s i wp) then map (ToLower X) (tokenText s i wp)
    else tokenText s i wp.
Proof. apply token_rule. Qed.

(** X5: a head that the engine keeps protects the next word.  If the word
    at index wi is a key of the head map and is the first word of its
    sentence, or all caps, or an exception, then it and the word after it
    read in the output as in the input. *)
Theorem kept_head_protects_next_word s si i j wi pp wp :
  sentenceSpans X s !! si = Some (i, j) →
  tokenize X (slice s i j) !! wi = Some pp →
  tokenize X (slice s i j) !! S wi = Some wp →
  lookupBool heads (tokenText s i pp) = true →
  wi = 0 ∨ isAllCaps X (tokenText s i pp) || lookupBool exceptions (tokenText s i pp) = true →
  tokenText (decapitalizeMidSentence X exceptions heads s) i pp = tokenText s i pp ∧
  tokenText (decapitalizeMidSentence X exceptions heads s) i wp = tokenText s i wp.
Proof.
  intros Hs Hpp Hwp Hh Hkept.
  assert (tokenText (engine s) i pp = tokenText s i pp) as Hp.
  { destruct Hkept as [->|Hc].
    - destruct (token_in_sentence X exceptions heads s si i j 0 pp Hs Hpp) as [Hin Hout].
      rewrite Hout, Hin.
      by apply (final_first X exceptions heads _ _ (tokenize_ok X (slice s i j)) pp).
    - by apply (skipped_token_kept X exceptions heads s si i j wi pp). }
  split; [done|].
  apply (successor_of_head_kept X exceptions heads s si i j wi pp wp Hs Hpp Hwp).
  by rewrite Hp.
Qed.

(** X6: a head that the engine lowers protects nothing.  If the word at
    index wi+1 is in title case, neither all caps nor an exception, and not
    after a head, it is lowered; if its lowered text is not a key of the
    head map, a title-case word after it that is neither all caps nor an
    exception is lowered as well, whether or not the text was a head. *)
Theorem lowered_word_protects_nothing s si i j wi p0 hd wp :
  sentenceSpans X s !! si = Some (i, j) →
  tokenize X (slice s i j) !! wi = Some p0 →
  tokenize X (slice s i j) !! S wi = Some hd →
  tokenize X (slice s i j) !! S (S wi) = Some wp →
  lookupBool heads (tokenText (decapitalizeMidSentence X exceptions heads s) i p0) = false →
  isAllCaps X (tokenText s i hd) || lookupBool exceptions (tokenText s i hd) = false →
  isTitleCase X (tokenText s i hd) = true →
  lookupBool heads (map (ToLower X) (tokenText s i hd)) = false →
  isAllCaps X (tokenText s i wp) || lookupBool exceptions (tokenText s i wp) = false →
  isTitleCase X (tokenText s i wp) = true →
  tokenText (decapitalizeMidSentence X exceptions heads s) i hd
    = map (ToLower X) (tokenText s i hd) ∧
  tokenText (decapitalizeMidSentence X exceptions heads s) i wp
    = map (ToLower X) (tokenText s i wp).
Proof.
  intros Hs Hp0 Hhd Hwp Hh0 Hc1 Ht1 Hh1 Hc2 Ht2.
  assert (tokenText (engine s) i hd = map (ToLower X) (tokenText s i hd)) as H1.
  { rewrite (token_rule s si i j wi p0 hd Hs Hp0 Hhd). by rewrite Hc1, Hh0, Ht1. }
  split; [done|].
  rewrite (token_rule s si i j (S wi) hd wp Hs Hhd Hwp). by rewrite Hc2, H1, Hh1, Ht2.
Qed.

Lemma spanLoop_consecutive rs fuel i0 si i j i' j' :
  spanLoop X fuel rs i0 !! si = Some (i, j) →
  spanLoop X fuel rs i0 !! S si = Some (i', j') →
  i' = sentenceNext X rs i.
Proof.
  revert i0 si. induction fuel as [|fuel IH]; simpl; intros i0 si H H'.
  - by rewrite lookup_nil in H.
  - destruct (i0 <? length rs); [|by rewrite lookup_nil in H].
    destruct si as [|si]; simpl in H, H'.
    + injection H as <- <-. destruct fuel as [|fuel]; simpl in H'; [done|].
      destruct (_ <? _); [|done]. simpl in H'. by injection H' as <- _.
    + by eapply IH.
Qed.

(** X7: the sentence spans the engine visits.  A span lies in the text and
    starts before its end, holds no terminal mark, and is followed by a
    terminal mark or by the end of the text; the first span starts at
    index 0; the next span starts after the mark and the white space that
    follows it, at a rune that is not white space. *)
Theorem sentence_span_shape s si i j :
  sentenceSpans X s !! si = Some (i, j) →
  i ≤ j ≤ length s ∧ i < length s ∧
  (∀ t r, i ≤ t < j → s !! t = Some r → isSentenceEnd r = false) ∧
  (∀ r, s !! j = Some r → isSentenceEnd r = true) ∧
  (si = 0 → i = 0) ∧
  (∀ i' j', sentenceSpans X s !! S si = Some (i', j') →
     j < i' ∧
     (∀ t r, j < t < i' → s !! t = Some r → IsSpace X r = true) ∧
     (∀ r, s !! i' = Some r → IsSpace X r = false)).
Proof.
  intros Hs. split; [by eapply (span_bounds X ∅ ∅)|].
  split; [by destruct (spanLoop_elem X s _ _ _ _ _ Hs)|].
  split; [intros t r; by eapply span_no_terminal|].
  split; [intros r; by eapply span_ends_at_terminal|].
  split.
  - intros ->. unfold sentenceSpans in Hs. destruct (length s); simpl in Hs; [done|].
    destruct (_ <? _); [|done]. simpl in Hs. by injection Hs as <- _.
  - intros i' j' Hs'.
    pose proof (spanLoop_consecutive s _ _ _ _ _ _ _ Hs Hs') as Hi'.
    destruct (spanLoop_elem X s _ _ _ _ _ Hs') as [Hlt _].
    destruct (spanLoop_elem X s _ _ _ _ _ Hs) as [_ Hj].
    unfold sentenceNext in Hi'. rewrite <-Hj in Hi'.
    destruct (s !! j) as [r|] eqn:Hr.
    + rewrite (span_ends_at_terminal X s si i j r Hs Hr) in Hi'.
      pose proof (scanWhile_ge (IsSpace X) s (S j)). split; [lia|]. split.
      * intros t q Ht Hq.
        destruct (scanWhile_all (IsSpace X) s (S j) t) as (q' & Hq' & Hsp); [lia|].
        congruence.
      * intros q Hq. rewrite Hi' in Hq. by apply scanWhile_stop in Hq.
    + apply lookup_ge_None_1 in Hr.
      pose proof (scanWhile_ge (IsSpace X) s j). lia.
Qed.

End Engine_rules.

Lemma engine_decision_rule_witness :
  tokenText (decapitalizeMidSentence asciiOnly defaultExceptions protectedHeads
               (runes "Saya di Kota Bogor")) 0 {| wp_start := 8; wp_end := 12 |}
    = runes "kota".
Proof.
  exact (engine_decision_rule asciiOnly defaultExceptions protectedHeads
           (runes "Saya di Kota Bogor") 0 0 18 1 {| wp_start := 5; wp_end := 7 |}
           {| wp_start := 8; wp_end := 12 |} eq_refl eq_refl eq_refl).
Defined.

Lemma kept_head_protects_next_word_witness :
  tokenText (decapitalizeMidSentence asciiOnly defaultExceptions protectedHeads
               (runes "Kami ke PT Maju Jaya")) 0 {| wp_start := 8; wp_end := 10 |}
    = runes "PT" ∧
  tokenText (decapitalizeMidSentence asciiOnly defaultExceptions protectedHeads
               (runes "Kami ke PT Maju Jaya")) 0 {| wp_start := 11; wp_end := 15 |}
    = runes "Maju".
Proof.
  apply (kept_head_protects_next_word asciiOnly defaultExceptions protectedHeads
           (runes "Kami ke PT Maju Jaya") 0 0 20 2 {| wp_start := 8; wp_end := 10 |}
           {| wp_start := 11; wp_end := 15 |}); try reflexivity.
  right. reflexivity.
Defined.

Lemma lowered_word_protects_nothing_witness :
  tokenText (decapitalizeMidSentence asciiOnly defaultExceptions protectedHeads
               (runes "Saya di Kota Bogor")) 0 {| wp_start := 8; wp_end := 12 |}
    = runes "kota" ∧
  tokenText (decapitalizeMidSentence asciiOnly defaultExceptions protectedHeads
               (runes "Saya di Kota Bogor")) 0 {| wp_start := 13; wp_end := 18 |}
    = runes "bogor".
Proof.
  apply (lowered_word_protects_nothing asciiOnly defaultExceptions protectedHeads
           (runes "Saya di Kota Bogor") 0 0 18 1 {| wp_start := 5; wp_end := 7 |}
           {| wp_start := 8; wp_end := 12 |} {| wp_start := 13; wp_end := 18 |});
    reflexivity.
Defined.

Lemma sentence_span_shape_witness :
  (12 ≤ 21 ≤ length (runes "Halo Dunia. Apa Kabar")) ∧
  12 < length (runes "Halo Dunia. Apa Kabar").
Proof.
  pose proof (sentence_span_shape asciiOnly (runes "Halo Dunia. Apa Kabar") 1 12 21 eq_refl)
    as H.
  split; [exact (proj1 H)|exact (proj1 (proj2 H))].
Defined.

(** * Texts the engine returns as they are *)

Section Engine_fixpoints.

Variable X : UnicodeExt.
Variables exceptions heads : gmap (list Z) bool.

Abbreviation sentence' := (decapSentence X exceptions heads).
Abbreviation engine' := (decapitalizeMidSentence X exceptions heads).

Lemma slice_eq_lookup {A} (l1 l2 : list A) a b t :
  slice l1 a b = slice l2 a b → a ≤ t < b → l1 !! t = l2 !! t.
Proof.
  intros H Ht. apply (f_equal (λ l, l !! (t - a))) in H.
  rewrite !lookup_slice in H. case_decide; [|lia].
  by replace (a + (t - a)) with t in H by lia.
Qed.

Lemma elem_of_slice {A} (l : list A) a b x : x ∈ slice l a b → x ∈ l.
Proof.
  intros H. apply list_elem_of_lookup in H as [t Ht]. rewrite lookup_slice in Ht.
  case_decide; [|done]. by eapply list_elem_of_lookup_2.
Qed.

Lemma sentence_first kal wp :
  tokenize X kal !! 0 = Some wp → wordText (sentence' kal) wp = wordText kal wp.
Proof. apply (final_first X exceptions heads _ _ (tokenize_ok X kal)). Qed.

Lemma sentence_rule kal k pp wp :
  tokenize X kal !! k = Some pp → tokenize X kal !! S k = Some wp →
  wordText (sentence' kal) wp =
    if isAllCaps X (wordText kal wp) || lookupBool exceptions (wordText kal wp)
    then wordText kal wp
    else if lookupBool heads (wordText (sentence' kal) pp) then wordText kal wp
    else if isTitleCase X (wordText kal wp) then map (ToLower X) (wordText kal wp)
    else wordText kal wp.
Proof.
  intros Hpp Hwp. pose proof (tokenize_ok X kal) as Hok.
  destruct (isAllCaps X (wordText kal wp) || lookupBool exceptions (wordText kal wp))
    eqn:Hc.
  { by apply (final_skip X exceptions heads _ _ Hok (S k) wp). }
  destruct (lookupBool heads (wordText (sentence' kal) pp)) eqn:Hh.
  { by apply (final_protected X exceptions heads _ _ Hok k pp wp). }
  by apply (final_lower X exceptions heads _ _ Hok k pp wp).
Qed.

(** A sentence whose words all come out as they went in is returned as it
    is. *)
Lemma decapSentence_fix kal :
  (∀ i wp, tokenize X kal !! i = Some wp →
           wordText (sentence' kal) wp = wordText kal wp) →
  sentence' kal = kal.
Proof.
  intros H. apply list_eq. intros t.
  destruct (kal !! t) as [r|] eqn:Hr.
  - destruct (decapSentence_runes X exceptions heads kal t r Hr) as (r' & Hr' & [->|[HL ->]]);
      [done|].
    destruct (tokenize_cover X kal t r Hr HL) as (i & wp & Hwp & Hin).
    rewrite (slice_eq_lookup _ _ _ _ t (H i wp Hwp) Hin). done.
  - apply lookup_ge_None_2. rewrite decapSentence_length. by apply lookup_ge_None_1.
Qed.

(** A text whose sentences are all returned as they are is returned as it
    is. *)
Lemma sentLoop_fix rs fuel i :
  (∀ si a b, spanLoop X fuel rs i !! si = Some (a, b) →
             sentence' (slice rs a b) = slice rs a b) →
  i ≤ length rs → length rs - i ≤ fuel →
  sentLoop X exceptions heads fuel rs i (take i rs) = rs.
Proof.
  revert i. induction fuel as [|fuel IH]; simpl; intros i H Hi Hf.
  - apply take_ge. lia.
  - destruct (i <? length rs) eqn:Hlt.
    2:{ apply Nat.ltb_ge in Hlt. apply take_ge. lia. }
    apply Nat.ltb_lt in Hlt.
    pose proof (sentenceStep_fst X exceptions heads rs i (take i rs)) as Hfst.
    pose proof (sentenceStep_snd X exceptions heads rs i (take i rs) Hi) as Hsnd.
    destruct (sentenceStep X exceptions heads rs i (take i rs)) as [i' out'].
    simpl in Hfst, Hsnd. subst i'.
    pose proof (sentenceEnd_bounds rs i Hi) as Hj.
    pose proof (sentenceNext_bounds X rs i Hi) as Hn.
    pose proof (sentenceNext_progress X rs i Hlt) as Hp.
    rewrite (H 0 i (sentenceEnd rs i)) in Hsnd by done.
    rewrite slice_app_next in Hsnd by lia.
    assert (take i rs = slice rs 0 i) as Ht by (unfold slice; by rewrite Nat.sub_0_r).
    rewrite Ht, slice_app_next in Hsnd by lia.
    assert (out' = take (sentenceNext X rs i) rs) as ->.
    { rewrite Hsnd. unfold slice. by rewrite Nat.sub_0_r. }
    apply IH; [|lia|lia].
    intros si a b Hs. by apply (H (S si)).
Qed.

Lemma engine_fix s :
  (∀ si a b, sentenceSpans X s !! si = Some (a, b) →
             sentence' (slice s a b) = slice s a b) →
  engine' s = s.
Proof. intros H. by apply (sentLoop_fix s (length s) 0); [|lia|lia]. Qed.

(** X8: a text without any upper-case rune is returned as it is. *)
Theorem no_upper_case_unchanged s :
  (∀ r, r ∈ s → IsUpper X r = false) →
  decapitalizeMidSentence X exceptions heads s = s.
Proof.
  intros Hno. apply engine_fix. intros si a b _.
  set (kal := slice s a b).
  assert (∀ r, r ∈ kal → IsUpper X r = false) as Hk.
  { intros r Hr. apply Hno. by eapply elem_of_slice. }
  apply decapSentence_fix. intros [|k] wp Hwp; [by apply sentence_first|].
  destruct (lookup_lt_is_Some_2 (tokenize X kal) k) as [pp Hpp].
  { apply lookup_lt_Some in Hwp. lia. }
  rewrite (sentence_rule kal k pp wp Hpp Hwp).
  destruct (_ || _); [done|]. destruct (lookupBool heads _); [done|].
  destruct (isTitleCase X (wordText kal wp)) eqn:Ht; [|done].
  unfold isTitleCase in Ht. destruct (wordText kal wp) as [|r tl] eqn:Hw; [done|].
  rewrite (Hk r) in Ht; [done|].
  apply (elem_of_slice kal (wp_start wp) (wp_end wp)). fold (wordText kal wp).
  rewrite Hw. constructor.
Qed.

End Engine_fixpoints.

Lemma no_upper_case_unchanged_witness :
  decapitalizeMidSentence asciiOnly defaultExceptions protectedHeads
    (runes "saya ke bank. lalu pulang") = runes "saya ke bank. lalu pulang".
Proof.
  apply no_upper_case_unchanged. intros r Hr. vm_compute in Hr.
  repeat (apply elem_of_cons in Hr as [->|Hr]; [reflexivity|]).
  by apply elem_of_nil in Hr.
Defined.

(** * Running the engine twice *)

Section Scans_ext.

(** The scans read a text only through their test. *)
Lemma runLength_ext (p : rune → bool) l l' :
  Forall2 (λ r r', p r' = p r) l l' → runLength p l' = runLength p l.
Proof. induction 1 as [|r r' l l' Hp _ IH]; simpl; [done|]. by rewrite Hp, IH. Qed.

Lemma scanWhile_ext (p : rune → bool) rs rs' j :
  Forall2 (λ r r', p r' = p r) rs rs' → scanWhile p rs' j = scanWhile p rs j.
Proof.
  intros H. unfold scanWhile. f_equal. apply runLength_ext. by apply Forall2_drop.
Qed.

End Scans_ext.

Section Engine_twice.

Variable X : UnicodeExt.
Variables exceptions heads : gmap (list Z) bool.

Lemma letter_not_terminal r : IsLetter X r = true → isSentenceEnd r = false.
Proof.
  unfold IsLetter, isSentenceEnd. intros H.
  destruct (decide (r = 46%Z ∨ r = 33%Z ∨ r = 63%Z)) as [ [ -> | [ -> | -> ] ] | Hn ];
    [done..|].
  lia.
Qed.

Lemma tokLoop_ext kal kal' fuel k words :
  Forall2 (sameClass X) kal kal' →
  tokLoop X fuel kal' k words = tokLoop X fuel kal k words.
Proof.
  intros H. revert k words. induction fuel as [|fuel IH]; simpl; intros k words; [done|].
  rewrite <-(Forall2_length _ _ _ H).
  destruct (k <? length kal); [|done].
  assert (Forall2 (λ r r', IsLetter X r' = IsLetter X r) kal kal') as HL.
  { eapply Forall2_impl; [exact H|]. unfold sameClass. by intros r r' (? & _). }
  assert (Forall2 (λ r r', negb (IsLetter X r') = negb (IsLetter X r)) kal kal') as HN.
  { eapply Forall2_impl; [exact H|]. unfold sameClass. intros r r' (Heq & _). by rewrite Heq. }
  rewrite (scanWhile_ext (λ r, negb (IsLetter X r)) kal kal' k HN).
  rewrite (scanWhile_ext (IsLetter X) kal kal' _ HL). apply IH.
Qed.

Lemma tokenize_ext kal kal' :
  Forall2 (sameClass X) kal kal' → tokenize X kal' = tokenize X kal.
Proof.
  intros H. unfold tokenize. rewrite <-(Forall2_length _ _ _ H). by apply tokLoop_ext.
Qed.

Lemma sentenceEnd_ext rs rs' i :
  Forall2 (sameClass X) rs rs' → sentenceEnd rs' i = sentenceEnd rs i.
Proof.
  intros H. apply (scanWhile_ext (λ r, negb (isSentenceEnd r))).
  eapply Forall2_impl; [exact H|]. unfold sameClass. intros r r' (_ & Heq & _). by rewrite Heq.
Qed.

Lemma sentenceNext_ext rs rs' i :
  Forall2 (sameClass X) rs rs' → sentenceNext X rs' i = sentenceNext X rs i.
Proof.
  intros H. unfold sentenceNext. rewrite (sentenceEnd_ext rs rs' i H).
  assert (Forall2 (λ r r', IsSpace X r' = IsSpace X r) rs rs') as HS.
  { eapply Forall2_impl; [exact H|]. unfold sameClass. by intros r r' (_ & _ & ?). }
  pose proof (proj1 (Forall2_lookup _ _ _) H (sentenceEnd rs i)) as Hj.
  unfold sameClass in Hj. destruct Hj as [r r' (_ & He & _)|].
  - rewrite He. destruct (isSentenceEnd r); by apply scanWhile_ext.
  - by apply scanWhile_ext.
Qed.

Lemma spanLoop_ext rs rs' fuel i :
  Forall2 (sameClass X) rs rs' → spanLoop X fuel rs' i = spanLoop X fuel rs i.
Proof.
  intros H. revert i. induction fuel as [|fuel IH]; simpl; intros i; [done|].
  rewrite <-(Forall2_length _ _ _ H). destruct (i <? length rs); [|done].
  by rewrite (sentenceEnd_ext rs rs' i H), (sentenceNext_ext rs rs' i H), IH.
Qed.

(** What holds of the case tables of Unicode: the lower-case form of a
    letter is a letter, lowering twice is lowering once, and no white-space
    rune is a letter. *)
Hypothesis lower_letter : ∀ r, IsLetter X r = true → IsLetter X (ToLower X r) = true.
Hypothesis lower_idem : ∀ r, IsLetter X r = true → ToLower X (ToLower X r) = ToLower X r.
Hypothesis space_not_letter : ∀ r, IsSpace X r = true → IsLetter X r = false.

Lemma letter_not_space r : IsLetter X r = true → IsSpace X r = false.
Proof.
  intros HL. destruct (IsSpace X r) eqn:Hs; [|done]. by rewrite (space_not_letter r Hs) in HL.
Qed.

Lemma keptOrLowered_sameClass r r' : keptOrLowered X r r' → sameClass X r r'.
Proof.
  intros [->|[HL ->]]; [done|]. pose proof (lower_letter r HL) as HL'.
  unfold sameClass. rewrite HL, HL'.
  by rewrite !letter_not_terminal, !letter_not_space.
Qed.

Lemma sentence_sameClass kal :
  Forall2 (sameClass X) kal (decapSentence X exceptions heads kal).
Proof.
  apply Forall2_same_length_lookup. split; [by rewrite decapSentence_length|].
  intros t r r' Hr Hr'.
  destruct (decapSentence_runes X exceptions heads kal t r Hr) as (r0 & Hr0 & Hrel).
  assert (r0 = r') as -> by congruence. by apply keptOrLowered_sameClass.
Qed.

Lemma engine_sameClass s :
  Forall2 (sameClass X) s (decapitalizeMidSentence X exceptions heads s).
Proof.
  apply Forall2_same_length_lookup. split; [by rewrite decap_length|].
  intros t r r' Hr Hr'.
  destruct (decap_runes X exceptions heads s t r Hr) as (r0 & Hr0 & Hrel).
  assert (r0 = r') as -> by congruence. by apply keptOrLowered_sameClass.
Qed.

Lemma lower_word_idem w :
  (∀ r, r ∈ w → IsLetter X r = true) →
  map (ToLower X) (map (ToLower X) w) = map (ToLower X) w.
Proof.
  intros H. induction w as [|r w IH]; simpl; [done|].
  rewrite lower_idem by (apply H; constructor). f_equal. apply IH.
  intros q Hq. apply H. by constructor.
Qed.

Lemma sentence_twice kal :
  decapSentence X exceptions heads (decapSentence X exceptions heads kal)
  = decapSentence X exceptions heads kal.
Proof.
  set (kal' := decapSentence X exceptions heads kal).
  pose proof (tokenize_ext kal kal' (sentence_sameClass kal)) as Htok.
  apply decapSentence_fix. rewrite Htok.
  intros i. induction i as [|k IH]; intros wp Hwp.
  - apply sentence_first. by rewrite Htok.
  - destruct (lookup_lt_is_Some_2 (tokenize X kal) k) as [pp Hpp].
    { apply lookup_lt_Some in Hwp. lia. }
    specialize (IH pp Hpp).
    rewrite (sentence_rule X exceptions heads kal' k pp wp) by (by rewrite Htok).
    rewrite IH.
    destruct (isAllCaps X (wordText kal' wp) || lookupBool exceptions (wordText kal' wp))
      eqn:Hc'; [done|].
    destruct (lookupBool heads (wordText kal' pp)) eqn:Hh; [done|].
    destruct (isTitleCase X (wordText kal' wp)) eqn:Ht'; [|done].
    pose proof (sentence_rule X exceptions heads kal k pp wp Hpp Hwp) as H1.
    fold kal' in H1. rewrite Hh in H1.
    destruct (isAllCaps X (wordText kal wp) || lookupBool exceptions (wordText kal wp))
      eqn:Hc.
    { rewrite H1 in Hc'. congruence. }
    destruct (isTitleCase X (wordText kal wp)) eqn:Ht.
    + rewrite H1. apply lower_word_idem. intros r Hr.
      apply list_elem_of_lookup in Hr as [t Hr]. unfold wordText in Hr.
      rewrite lookup_slice in Hr. case_decide; [|done].
      destruct (ok_word _ _ _ _ (tokenize_ok X kal) (S k) wp Hwp) as (_ & _ & Hl).
      destruct (Hl (wp_start wp + t)) as (r0 & Hr0 & HL); [unfold inSpan; lia|].
      congruence.
    + rewrite H1 in Ht'. congruence.
Qed.

Lemma engine_twice s :
  decapitalizeMidSentence X exceptions heads (decapitalizeMidSentence X exceptions heads s)
  = decapitalizeMidSentence X exceptions heads s.
Proof.
  apply engine_fix. intros si a b Hs.
  unfold sentenceSpans in Hs. rewrite decap_length in Hs.
  rewrite (spanLoop_ext s _ _ _ (engine_sameClass s)) in Hs.
  rewrite (decap_span X exceptions heads s si a b Hs). apply sentence_twice.
Qed.

End Engine_twice.

(** X9: the engine is idempotent: run on its own output it changes nothing.
    The three hypotheses hold of the case tables of Unicode: the lower-case
    form of a letter is a letter, lowering twice is lowering once, and no
    white-space rune is a letter. *)
Theorem engine_idempotent X exceptions heads s :
  (∀ r, IsLetter X r = true → IsLetter X (ToLower X r) = true) →
  (∀ r, IsLetter X r = true → ToLower X (ToLower X r) = ToLower X r) →
  (∀ r, IsSpace X r = true → IsLetter X r = false) →
  decapitalizeMidSentence X exceptions heads (decapitalizeMidSentence X exceptions heads s)
  = decapitalizeMidSentence X exceptions heads s.
Proof. intros H1 H2 H3. by apply engine_twice. Qed.

Lemma asciiOnly_lower_letter r :
  IsLetter asciiOnly r = true → IsLetter asciiOnly (ToLower asciiOnly r) = true.
Proof.
  unfold IsLetter, ToLower. destruct (isASCII r) eqn:Ha; [|done].
  unfold isASCII, asciiToLower, asciiLetter, asciiUpper, asciiLower, inRange in *.
  intros H. destruct ((65 <=? r)%Z && (r <=? 90)%Z) eqn:Hu.
  - assert (isASCII (r + 32) = true) as Ha' by (unfold isASCII; lia).
    unfold isASCII in Ha'. rewrite Ha'. lia.
  - rewrite Ha. simpl in H. by rewrite Hu.
Qed.

Lemma asciiOnly_lower_idem r :
  IsLetter asciiOnly r = true →
  ToLower asciiOnly (ToLower asciiOnly r) = ToLower asciiOnly r.
Proof.
  unfold IsLetter, ToLower. destruct (isASCII r) eqn:Ha; [|done]. intros _.
  unfold isASCII, asciiToLower, asciiUpper, inRange in *.
  destruct ((65 <=? r)%Z && (r <=? 90)%Z) eqn:Hu.
  - assert (((0 <=? r + 32)%Z && (r + 32 <? 128)%Z) = true) as -> by lia.
    by assert (((65 <=? r + 32)%Z && (r + 32 <=? 90)%Z) = false) as -> by lia.
  - by rewrite Ha, Hu.
Qed.

Lemma engine_idempotent_witness :
  decapitalizeMidSentence asciiOnly defaultExceptions protectedHeads
    (decapitalizeMidSentence asciiOnly defaultExceptions protectedHeads
       (runes "Saya ke Jalan Sudirman"))
  = decapitalizeMidSentence asciiOnly defaultExceptions protectedHeads
      (runes "Saya ke Jalan Sudirman").
Proof.
  apply (engine_idempotent asciiOnly defaultExceptions protectedHeads
           (runes "Saya ke Jalan Sudirman")
           asciiOnly_lower_letter asciiOnly_lower_idem asciiOnly_space_not_letter).
Defined.

(** * firstLetterIndex and capitalizeSentences *)

Section Capitalizer.

Variable X : UnicodeExt.

Lemma findLetter_search l i0 :
  match findLetter X l i0 with
  | Some k =>
      i0 ≤ k ∧ (∃ c, l !! (k - i0) = Some c ∧ IsLetter X c = true) ∧
      ∀ t c, t < k - i0 → l !! t = Some c → IsLetter X c = false
  | None => ∀ t c, l !! t = Some c → IsLetter X c = false
  end.
Proof.
  revert i0. induction l as [|r l IH]; simpl; intros i0; [done|].
  destruct (IsLetter X r) eqn:Hr.
  - split; [lia|]. rewrite Nat.sub_diag. split; [by exists r|]. intros t c Ht. lia.
  - specialize (IH (S i0)). destruct (findLetter X l (S i0)) as [k|].
    + destruct IH as (Hk & (c & Hc & HL) & Hbefore). split; [lia|].
      replace (k - i0) with (S (k - S i0)) by lia. split; [by exists c|].
      intros [|t] c' Ht Hc'; simpl in Hc'; [congruence|]. apply (Hbefore t); [lia|done].
    + intros [|t] c Hc; simpl in Hc; [congruence|by eapply IH].
Qed.

(** X10: [firstLetterIndex] is a search.  A result i is at or after the
    start, holds a letter, and no index from the start up to i holds one;
    without a result (-1 in the code) no index from the start on holds a
    letter. *)
Theorem firstLetterIndex_search r start :
  match firstLetterIndex X r start with
  | Some i =>
      start ≤ i ∧ (∃ c, r !! i = Some c ∧ IsLetter X c = true) ∧
      ∀ t c, start ≤ t < i → r !! t = Some c → IsLetter X c = false
  | None => ∀ t c, start ≤ t → r !! t = Some c → IsLetter X c = false
  end.
Proof.
  unfold firstLetterIndex. pose proof (findLetter_search (drop start r) start) as H.
  destruct (findLetter X (drop start r) start) as [k|].
  - destruct H as (Hk & (c & Hc & HL) & Hbefore). split; [done|].
    rewrite lookup_drop in Hc. replace (start + (k - start)) with k in Hc by lia.
    split; [by exists c|]. intros t c' Ht Hc'. apply (Hbefore (t - start)); [lia|].
    rewrite lookup_drop. by replace (start + (t - start)) with t by lia.
  - intros t c Ht Hc. apply (H (t - start)). rewrite lookup_drop.
    by replace (start + (t - start)) with t by lia.
Qed.

(** The search reads the text only through the letter test. *)
Lemma findLetter_ext l l' i0 :
  Forall2 (λ r r', IsLetter X r' = IsLetter X r) l l' →
  findLetter X l' i0 = findLetter X l i0.
Proof.
  intros H. revert i0. induction H as [|r r' l l' Hr _ IH]; simpl; intros i0; [done|].
  rewrite Hr. by destruct (IsLetter X r).
Qed.

Lemma firstLetterIndex_ext r r' start :
  Forall2 (λ r r', IsLetter X r' = IsLetter X r) r r' →
  firstLetterIndex X r' start = firstLetterIndex X r start.
Proof. intros H. apply findLetter_ext. by apply Forall2_drop. Qed.

Lemma firstLetterIndex_letter r start i :
  firstLetterIndex X r start = Some i → ∃ c, r !! i = Some c ∧ IsLetter X c = true.
Proof.
  unfold firstLetterIndex. intros H.
  pose proof (findLetter_search (drop start r) start) as Hs. rewrite H in Hs.
  destruct Hs as (Hk & (c & Hc & HL) & _). exists c. split; [|done].
  rewrite lookup_drop in Hc. by replace (start + (i - start)) with i in Hc by lia.
Qed.

(** What holds of the case tables of Unicode: the upper-case form of a
    letter is a letter, and raising twice is raising once. *)
Hypothesis upper_letter : ∀ r, IsLetter X r = true → IsLetter X (ToUpper X r) = true.
Hypothesis upper_idem : ∀ r, IsLetter X r = true → ToUpper X (ToUpper X r) = ToUpper X r.

Variable s : list rune.

Lemma raisedAt_shape P cur :
  (∀ t, P t → ∃ c, s !! t = Some c ∧ IsLetter X c = true) →
  raisedAt X s P cur →
  Forall2 (λ r r', IsLetter X r' = IsLetter X r ∧ isSentenceEnd r' = isSentenceEnd r) s cur.
Proof.
  intros HP [Hlen H]. apply Forall2_same_length_lookup. split; [done|].
  intros t r r' Hr Hr'. destruct (H t) as [_ [H2|[Hp H2]]].
  - by assert (r' = r) as -> by congruence.
  - rewrite Hr, Hr' in H2. injection H2 as ->.
    destruct (HP _ Hp) as (c & Hc & HL). assert (c = r) as -> by congruence.
    pose proof (upper_letter r HL) as HL'. rewrite HL, HL'.
    split; [done|]. by rewrite !(letter_not_terminal X).
Qed.

Lemma startBefore_letter idx t :
  startBefore X s idx t → ∃ c, s !! t = Some c ∧ IsLetter X c = true.
Proof.
  intros [H|(i & r & _ & _ & _ & H)]; by eapply firstLetterIndex_letter.
Qed.

(** Raising the first letter from [k] on, found in [cur], is raising the
    one found in [s]. *)
Lemma raise_step P cur k :
  (∀ t, P t → ∃ c, s !! t = Some c ∧ IsLetter X c = true) →
  raisedAt X s P cur →
  raisedAt X s (λ t, P t ∨ firstLetterIndex X s k = Some t)
    (upperAt X cur (firstLetterIndex X cur k)).
Proof.
  intros HP Hinv. pose proof (raisedAt_shape P cur HP Hinv) as Hshape.
  assert (firstLetterIndex X cur k = firstLetterIndex X s k) as ->.
  { apply firstLetterIndex_ext. eapply Forall2_impl; [exact Hshape|]. by intros r r' [? _]. }
  destruct Hinv as [Hlen H].
  destruct (firstLetterIndex X s k) as [j|] eqn:Hj; simpl.
  - destruct (firstLetterIndex_letter s k j Hj) as (c & Hc & HL).
    split; [by rewrite length_alter|]. intros t. rewrite list_lookup_alter.
    destruct (H t) as [H1 H2]. case_decide as Htj.
    + subst t. assert (alterd : ToUpper X <$> cur !! j = ToUpper X <$> s !! j).
      { destruct H2 as [->|[_ ->]]; [done|]. rewrite Hc. simpl. by rewrite upper_idem. }
      split; [done|]. right. split; [by right|done].
    + split.
      * intros [Hp|[= <-]]; [by apply H1|done].
      * destruct H2 as [H2|[Hp H2]]; [by left|]. right. split; [by left|done].
  - split; [done|]. intros t. destruct (H t) as [H1 H2]. split.
    + intros [Hp|?]; [by apply H1|done].
    + destruct H2 as [H2|[Hp H2]]; [by left|]. right. split; [by left|done].
Qed.

Lemma raisedAt_iff P Q cur :
  (∀ t, P t ↔ Q t) → raisedAt X s P cur → raisedAt X s Q cur.
Proof.
  intros HPQ [Hlen H]. split; [done|]. intros t. destruct (H t) as [H1 H2]. split.
  - intros Hq. apply H1. by apply HPQ.
  - destruct H2 as [H2|[Hp H2]]; [by left|]. right. split; [by apply HPQ|done].
Qed.

Lemma capLoop_raised todo idx cur :
  raisedAt X s (startBefore X s idx) cur →
  raisedAt X s (startBefore X s (idx + todo)) (capLoop X todo idx cur).
Proof.
  revert idx cur. induction todo as [|todo IH]; simpl; intros idx cur Hinv.
  - by rewrite Nat.add_0_r.
  - replace (idx + S todo) with (S idx + todo) by lia. apply IH.
    pose proof (raisedAt_shape _ cur (startBefore_letter idx) Hinv) as Hshape.
    destruct (cur !! idx) as [r'|] eqn:Hc; simpl.
    + destruct (Forall2_lookup_r _ _ _ _ _ Hshape Hc) as (r & Hr & _ & He).
      rewrite He. destruct (isSentenceEnd r) eqn:Hend.
      * eapply raisedAt_iff; [|apply (raise_step _ cur (idx + 1) (startBefore_letter idx) Hinv)].
        intros t. unfold startBefore. split.
        -- intros [[H|(i & q & Hi & Hq & Hqe & H)]|H]; [by left| |].
           ++ right. exists i, q. split; [lia|done].
           ++ right. exists idx, r. split; [lia|done].
        -- intros [H|(i & q & Hi & Hq & Hqe & H)]; [by left; left|].
           destruct (decide (i = idx)) as [->|Hne].
           ++ by right.
           ++ left. right. exists i, q. split; [lia|done].
      * eapply raisedAt_iff; [|exact Hinv]. intros t. unfold startBefore. split.
        -- intros [H|(i & q & Hi & Hq & Hqe & H)]; [by left|].
           right. exists i, q. split; [lia|done].
        -- intros [H|(i & q & Hi & Hq & Hqe & H)]; [by left|].
           destruct (decide (i = idx)) as [->|Hne]; [congruence|].
           right. exists i, q. split; [lia|done].
    + assert (s !! idx = None) as Hs.
      { apply lookup_ge_None_2. apply lookup_ge_None_1 in Hc. destruct Hinv as [Hlen _]. lia. }
      eapply raisedAt_iff; [|exact Hinv]. intros t. unfold startBefore. split.
      * intros [H|(i & q & Hi & Hq & Hqe & H)]; [by left|].
        right. exists i, q. split; [lia|done].
      * intros [H|(i & q & Hi & Hq & Hqe & H)]; [by left|].
        destruct (decide (i = idx)) as [->|Hne]; [congruence|].
        right. exists i, q. split; [lia|done].
Qed.

Lemma capitalizeSentences_raised :
  raisedAt X s (sentenceStart X s) (capitalizeSentences X s).
Proof.
  unfold capitalizeSentences.
  assert (raisedAt X s (λ _, False) s) as H0.
  { split; [done|]. intros t. split; [done|by left]. }
  assert (∀ t, (λ _ : nat, False) t → ∃ c, s !! t = Some c ∧ IsLetter X c = true) as HF
    by (by intros t []).
  pose proof (raise_step _ s 0 HF H0) as H1.
  assert (raisedAt X s (startBefore X s 0) (upperAt X s (firstLetterIndex X s 0))) as H2.
  { eapply raisedAt_iff; [|exact H1]. intros t. unfold startBefore. split.
    - intros [[]|H]. by left.
    - intros [H|(i & _ & Hi & _)]; [by right|lia]. }
  pose proof (capLoop_raised (length s) 0 _ H2) as H3. simpl in H3.
  eapply raisedAt_iff; [|exact H3]. intros t. unfold startBefore, sentenceStart. split.
  - intros [H|(i & r & Hi & Hr & He & H)]; [by left|]. right. by exists i, r.
  - intros [H|(i & r & Hr & He & H)]; [by left|]. right. exists i, r.
    split; [by eapply lookup_lt_Some|done].
Qed.

End Capitalizer.

(** X11: what [capitalizeSentences] writes.  The output has the length of
    the input; the rune at the first letter of the text and at the first
    letter after each terminal mark is raised to upper case, and every
    other rune is as in the input.  The two hypotheses hold of the case
    tables of Unicode: the upper-case form of a letter is a letter, and
    raising twice is raising once. *)
Theorem capitalizeSentences_spec X s :
  (∀ r, IsLetter X r = true → IsLetter X (ToUpper X r) = true) →
  (∀ r, IsLetter X r = true → ToUpper X (ToUpper X r) = ToUpper X r) →
  length (capitalizeSentences X s) = length s ∧
  ∀ t, (sentenceStart X s t → capitalizeSentences X s !! t = ToUpper X <$> s !! t) ∧
       (¬ sentenceStart X s t → capitalizeSentences X s !! t = s !! t).
Proof.
  intros H1 H2. destruct (capitalizeSentences_raised X H1 H2 s) as [Hlen H].
  split; [done|]. intros t. destruct (H t) as [Ha Hb]. split; [done|].
  intros Hn. by destruct Hb as [|[]].
Qed.

(** X12: [capitalizeSentences] is idempotent, under the same two
    hypotheses on the case tables. *)
Theorem capitalizeSentences_idempotent X s :
  (∀ r, IsLetter X r = true → IsLetter X (ToUpper X r) = true) →
  (∀ r, IsLetter X r = true → ToUpper X (ToUpper X r) = ToUpper X r) →
  capitalizeSentences X (capitalizeSentences X s) = capitalizeSentences X s.
Proof.
  intros H1 H2. set (out := capitalizeSentences X s).
  pose proof (capitalizeSentences_raised X H1 H2 s) as Hs. fold out in Hs.
  pose proof (capitalizeSentences_raised X H1 H2 out) as Ho.
  assert (∀ t, sentenceStart X s t → ∃ c, s !! t = Some c ∧ IsLetter X c = true) as HP.
  { intros t [H|(i & r & _ & _ & H)]; by eapply firstLetterIndex_letter. }
  pose proof (raisedAt_shape X H1 s _ out HP Hs) as Hshape.
  assert (∀ k, firstLetterIndex X out k = firstLetterIndex X s k) as Hfl.
  { intros k. apply firstLetterIndex_ext. eapply Forall2_impl; [exact Hshape|].
    by intros r r' [? _]. }
  apply list_eq. intros t. destruct Ho as [_ Ho]. destruct (Ho t) as [_ [H|[Hst H]]]; [done|].
  assert (sentenceStart X s t) as Hst'.
  { destruct Hst as [H0|(i & r' & Hr' & He & H0)]; [left; by rewrite <-Hfl|].
    destruct (Forall2_lookup_r _ _ _ _ _ Hshape Hr') as (r & Hr & _ & Hee).
    right. exists i, r. rewrite <-Hfl. split; [done|]. split; [congruence|done]. }
  destruct Hs as [_ Hs]. destruct (Hs t) as [Hup _]. specialize (Hup Hst').
  rewrite H, Hup. destruct (HP t Hst') as (c & Hc & HL). rewrite Hc. simpl.
  by rewrite H2.
Qed.

Lemma asciiOnly_upper_letter r :
  IsLetter asciiOnly r = true → IsLetter asciiOnly (ToUpper asciiOnly r) = true.
Proof.
  unfold IsLetter, ToUpper. destruct (isASCII r) eqn:Ha; [|done].
  unfold isASCII, asciiToUpper, asciiLetter, asciiUpper, asciiLower, inRange in *.
  intros H. destruct ((97 <=? r)%Z && (r <=? 122)%Z) eqn:Hl.
  - assert (((0 <=? r - 32)%Z && (r - 32 <? 128)%Z) = true) as -> by lia. lia.
  - rewrite Ha, Hl. exact H.
Qed.

Lemma asciiOnly_upper_idem r :
  IsLetter asciiOnly r = true →
  ToUpper asciiOnly (ToUpper asciiOnly r) = ToUpper asciiOnly r.
Proof.
  unfold IsLetter, ToUpper. destruct (isASCII r) eqn:Ha; [|done]. intros _.
  unfold isASCII, asciiToUpper, asciiLower, inRange in *.
  destruct ((97 <=? r)%Z && (r <=? 122)%Z) eqn:Hl.
  - assert (((0 <=? r - 32)%Z && (r - 32 <? 128)%Z) = true) as -> by lia.
    by assert (((97 <=? r - 32)%Z && (r - 32 <=? 122)%Z) = false) as -> by lia.
  - by rewrite Ha, Hl.
Qed.

Lemma capitalizeSentences_spec_witness :
  length (capitalizeSentences asciiOnly (runes "halo. apa kabar"))
    = length (runes "halo. apa kabar").
Proof.
  exact (proj1 (capitalizeSentences_spec asciiOnly (runes "halo. apa kabar")
                  asciiOnly_upper_letter asciiOnly_upper_idem)).
Defined.

Lemma capitalizeSentences_idempotent_witness :
  capitalizeSentences asciiOnly (capitalizeSentences asciiOnly (runes "halo. apa kabar"))
    = capitalizeSentences asciiOnly (runes "halo. apa kabar").
Proof.
  exact (capitalizeSentences_idempotent asciiOnly (runes "halo. apa kabar")
           asciiOnly_upper_letter asciiOnly_upper_idem).
Defined.

(** * Trimming, fields and TitleCase *)

Section Trimming.

Variable X : UnicodeExt.

Abbreviation spaceP := (λ r, IsSpace X r = true).
Abbreviation inkP := (λ r, IsSpace X r = false).

Lemma trimLeft_head l r l' : trimLeft X l = r :: l' → IsSpace X r = false.
Proof.
  induction l as [|c l IH]; simpl; [done|].
  destruct (IsSpace X c) eqn:Hc; [done|]. by intros [= <- _].
Qed.

Lemma trimLeft_fixed l : (∀ r l', l = r :: l' → IsSpace X r = false) → trimLeft X l = l.
Proof. destruct l as [|c l]; simpl; [done|]. intros H. by rewrite (H c l). Qed.

Lemma trimLeft_spaces a l : Forall spaceP a → trimLeft X (a ++ l) = trimLeft X l.
Proof. induction 1 as [|c a Hc _ IH]; simpl; [done|]. by rewrite Hc. Qed.

Lemma trimLeft_all_spaces a : Forall spaceP a → trimLeft X a = [].
Proof. intros H. rewrite <-(app_nil_r a). by rewrite trimLeft_spaces. Qed.

Lemma trimLeft_app l b :
  trimLeft X (l ++ b) = match trimLeft X l with [] => trimLeft X b | t => t ++ b end.
Proof.
  induction l as [|c l IH]; simpl; [by destruct (trimLeft X b)|].
  by destruct (IsSpace X c).
Qed.

(** The trimmed text has no white space at either end. *)
Lemma TrimSpace_ends s :
  (∀ r tl, TrimSpace X s = r :: tl → IsSpace X r = false) ∧
  (∀ hd r, TrimSpace X s = hd ++ [r] → IsSpace X r = false).
Proof.
  unfold TrimSpace. set (u := trimLeft X s). set (v := trimLeft X (reverse u)). split.
  - intros r tl H. apply (f_equal reverse) in H. rewrite reverse_involutive, reverse_cons in H.
    destruct (trimLeft_spec X (reverse u)) as (a & Ha & _). fold v in Ha. rewrite H in Ha.
    apply (f_equal reverse) in Ha.
    rewrite reverse_involutive, !reverse_app, reverse_involutive in Ha. simpl in Ha.
    by apply (trimLeft_head s r (tl ++ reverse a)).
  - intros hd r H. apply (f_equal reverse) in H.
    rewrite reverse_involutive, reverse_app in H. simpl in H.
    by apply (trimLeft_head (reverse u) r (reverse hd)).
Qed.

Lemma TrimSpace_fixed l :
  (∀ r tl, l = r :: tl → IsSpace X r = false) →
  (∀ hd r, l = hd ++ [r] → IsSpace X r = false) →
  TrimSpace X l = l.
Proof.
  intros Hh Hl. unfold TrimSpace. rewrite (trimLeft_fixed l Hh).
  rewrite trimLeft_fixed; [apply reverse_involutive|].
  intros r l' H. apply (Hl (reverse l') r). apply (f_equal reverse) in H.
  by rewrite reverse_involutive, reverse_cons in H.
Qed.

Lemma TrimSpace_idem s : TrimSpace X (TrimSpace X s) = TrimSpace X s.
Proof. destruct (TrimSpace_ends s). by apply TrimSpace_fixed. Qed.

(** White space around a text does not change what is left of it. *)
Lemma TrimSpace_outer a s b :
  Forall spaceP a → Forall spaceP b → TrimSpace X (a ++ s ++ b) = TrimSpace X s.
Proof.
  intros Ha Hb. unfold TrimSpace. rewrite (trimLeft_spaces a _ Ha), trimLeft_app.
  destruct (trimLeft X s) as [|c t] eqn:Hs.
  - by rewrite (trimLeft_all_spaces b Hb).
  - rewrite reverse_app, trimLeft_spaces; [done|]. by apply Forall_reverse.
Qed.

End Trimming.

(** X13: the ends of the output of [SanitizeToPUEBI].  An empty or
    white-space-only text is returned as it is; for any other text the
    output neither starts nor ends with a white-space rune. *)
Theorem sanitize_output_is_trimmed X s :
  (TrimSpace X s = [] → SanitizeToPUEBI X s = s) ∧
  (TrimSpace X s ≠ [] →
     (∀ r tl, SanitizeToPUEBI X s = r :: tl → IsSpace X r = false) ∧
     (∀ hd r, SanitizeToPUEBI X s = hd ++ [r] → IsSpace X r = false)).
Proof.
  unfold SanitizeToPUEBI. split.
  - by intros ->.
  - intros Hne. destruct (TrimSpace X s) as [|c t]; [done|]. apply TrimSpace_ends.
Qed.

(** X14: [IsSentenceCapitalized] does not look at white space around the
    text. *)
Theorem IsSentenceCapitalized_ignores_outer_space X a s b :
  Forall (λ r, IsSpace X r = true) a → Forall (λ r, IsSpace X r = true) b →
  IsSentenceCapitalized X (a ++ s ++ b) = IsSentenceCapitalized X s.
Proof.
  intros Ha Hb. rewrite !IsSentenceCapitalized_trimmed. by rewrite TrimSpace_outer.
Qed.

Lemma IsSentenceCapitalized_ignores_outer_space_witness :
  IsSentenceCapitalized asciiOnly (runes "  " ++ runes "Halo" ++ runes " ")
    = IsSentenceCapitalized asciiOnly (runes "Halo").
Proof.
  apply IsSentenceCapitalized_ignores_outer_space; repeat constructor.
Defined.

Section Fields_TitleCase.

Variable X : UnicodeExt.

(** A field: not empty and without white space. *)
Abbreviation wordP := (λ f : list rune, f ≠ [] ∧ Forall (λ r, IsSpace X r = false) f).

Lemma fieldsLoop_words cur l :
  Forall (λ r, IsSpace X r = false) cur → Forall wordP (fieldsLoop X cur l).
Proof.
  revert cur. induction l as [|r l IH]; simpl; intros cur Hcur.
  - destruct cur; [constructor|]. constructor; [done|constructor].
  - destruct (IsSpace X r) eqn:Hr.
    + destruct cur as [|c cur]; [by apply IH|].
      constructor; [done|]. by apply IH.
    + apply IH. apply Forall_app. split; [done|]. by repeat constructor.
Qed.

Lemma Fields_words s : Forall wordP (Fields X s).
Proof. by apply fieldsLoop_words. Qed.

Lemma fieldsLoop_ink cur f l :
  Forall (λ r, IsSpace X r = false) f →
  fieldsLoop X cur (f ++ l) = fieldsLoop X (cur ++ f) l.
Proof.
  intros H. revert cur. induction H as [|r f Hr _ IH]; simpl; intros cur.
  - by rewrite app_nil_r.
  - rewrite Hr, IH. by rewrite <-app_assoc.
Qed.

Lemma space_32 : IsSpace X 32 = true.
Proof. done. Qed.

Lemma fieldsLoop_space cur l :
  cur ≠ [] → fieldsLoop X cur (32%Z :: l) = cur :: fieldsLoop X [] l.
Proof. intros H. destruct cur; [done|]. reflexivity. Qed.

(** Joining fields with single spaces and splitting again gives the fields
    back. *)
Lemma Fields_joinSpace fs : Forall wordP fs → Fields X (joinSpace fs) = fs.
Proof.
  unfold Fields. induction 1 as [|f fs [Hne Hf] Hfs IH]; [done|].
  destruct fs as [|g fs].
  - simpl. transitivity (fieldsLoop X [] (f ++ [])); [by rewrite app_nil_r|].
    rewrite fieldsLoop_ink by done. simpl. by destruct f.
  - change (joinSpace (f :: g :: fs)) with (f ++ 32%Z :: joinSpace (g :: fs)).
    rewrite fieldsLoop_ink by done. rewrite app_nil_l, fieldsLoop_space by done.
    by rewrite IH.
Qed.

Lemma joinSpace_nil fs : Forall wordP fs → joinSpace fs = [] → fs = [].
Proof.
  intros H. destruct H as [|f fs [Hne _] _]; [done|].
  destruct fs; simpl; [done|]. by destruct f.
Qed.

Lemma fieldsLoop_blank cur l :
  fieldsLoop X cur l = [] → cur = [] ∧ Forall (λ r, IsSpace X r = true) l.
Proof.
  revert cur. induction l as [|r l IH]; simpl; intros cur H.
  - by destruct cur.
  - destruct (IsSpace X r) eqn:Hr.
    + destruct cur; [|done]. destruct (IH [] H) as [_ Hl]. split; [done|by constructor].
    + destruct (IH _ H) as [Hc _]. by destruct cur.
Qed.

Lemma fieldsLoop_of_blank l : Forall (λ r, IsSpace X r = true) l → fieldsLoop X [] l = [].
Proof. induction 1 as [|r l Hr _ IH]; simpl; [done|]. by rewrite Hr. Qed.

Lemma titleWord_not_nil f : f ≠ [] → titleWord X f ≠ [].
Proof. by destruct f. Qed.

(** X15: [TitleCase] returns the empty text exactly on the texts that are
    empty or all white space. *)
Theorem TitleCase_empty_iff_blank s :
  TitleCase X s = [] ↔ Forall (λ r, IsSpace X r = true) s.
Proof.
  unfold TitleCase. split.
  - intros H. pose proof (Fields_words s) as Hw.
    destruct (Fields X s) as [|f fs] eqn:Hf.
    + by destruct (fieldsLoop_blank [] s Hf).
    + exfalso. apply Forall_cons in Hw as [[Hne _] _].
      simpl in H. destruct (map (titleWord X) fs); simpl in H.
      * by apply (titleWord_not_nil f).
      * apply app_eq_nil in H as [H _]. by apply (titleWord_not_nil f).
  - intros H. unfold Fields. by rewrite fieldsLoop_of_blank.
Qed.

(** What holds of the case tables of Unicode: a case mapping does not turn
    a rune that is not white space into white space, and applying a case
    mapping twice is applying it once. *)
Hypothesis upper_ink : ∀ r, IsSpace X r = false → IsSpace X (ToUpper X r) = false.
Hypothesis lower_ink : ∀ r, IsSpace X r = false → IsSpace X (ToLower X r) = false.

Lemma titleWord_word f : wordP f → wordP (titleWord X f).
Proof.
  intros [Hne Hf]. destruct f as [|r f]; [done|]. simpl. split; [done|].
  apply Forall_cons in Hf as [Hr Hf]. constructor; [by apply upper_ink|].
  apply Forall_fmap. eapply Forall_impl; [exact Hf|]. intros q. apply lower_ink.
Qed.

Lemma Fields_TitleCase s : Fields X (TitleCase X s) = map (titleWord X) (Fields X s).
Proof.
  unfold TitleCase. apply Fields_joinSpace. apply Forall_fmap.
  eapply Forall_impl; [apply Fields_words|]. intros f. apply titleWord_word.
Qed.

Hypothesis upper_twice : ∀ r, ToUpper X (ToUpper X r) = ToUpper X r.
Hypothesis lower_twice : ∀ r, ToLower X (ToLower X r) = ToLower X r.

Lemma titleWord_twice f : titleWord X (titleWord X f) = titleWord X f.
Proof.
  destruct f as [|r f]; simpl; [done|]. rewrite upper_twice. f_equal.
  rewrite <-list_fmap_compose. apply list_fmap_ext. intros _ q _. simpl. apply lower_twice.
Qed.

Lemma TitleCase_twice s : TitleCase X (TitleCase X s) = TitleCase X s.
Proof.
  unfold TitleCase at 1. rewrite Fields_TitleCase. unfold TitleCase. f_equal.
  rewrite <-list_fmap_compose. apply list_fmap_ext. intros _ f _. simpl. apply titleWord_twice.
Qed.

End Fields_TitleCase.


(** X17: [TitleCase] is idempotent.  Besides the hypotheses of X16, applying
    a case mapping twice is applying it once, which holds of the case
    tables of Unicode. *)
Theorem TitleCase_idempotent X s :
  (∀ r, IsSpace X r = false → IsSpace X (ToUpper X r) = false) →
  (∀ r, IsSpace X r = false → IsSpace X (ToLower X r) = false) →
  (∀ r, ToUpper X (ToUpper X r) = ToUpper X r) →
  (∀ r, ToLower X (ToLower X r) = ToLower X r) →
  TitleCase X (TitleCase X s) = TitleCase X s.
Proof. intros H1 H2 H3 H4. by apply TitleCase_twice. Qed.

Lemma asciiOnly_upper_ink r :
  IsSpace asciiOnly r = false → IsSpace asciiOnly (ToUpper asciiOnly r) = false.
Proof.
  unfold IsSpace, ToUpper. destruct (isASCII r) eqn:Ha; simpl; [|by rewrite Ha].
  unfold isASCII, asciiToUpper, asciiSpace, asciiLower, inRange in *.
  destruct ((97 <=? r)%Z && (r <=? 122)%Z) eqn:Hl.
  - assert (((0 <=? r - 32)%Z && (r - 32 <? 128)%Z) = true) as -> by lia. lia.
  - by rewrite Ha.
Qed.

Lemma asciiOnly_lower_ink r :
  IsSpace asciiOnly r = false → IsSpace asciiOnly (ToLower asciiOnly r) = false.
Proof.
  unfold IsSpace, ToLower. destruct (isASCII r) eqn:Ha; simpl; [|by rewrite Ha].
  unfold isASCII, asciiToLower, asciiSpace, asciiUpper, inRange in *.
  destruct ((65 <=? r)%Z && (r <=? 90)%Z) eqn:Hu.
  - assert (((0 <=? r + 32)%Z && (r + 32 <? 128)%Z) = true) as -> by lia. lia.
  - by rewrite Ha.
Qed.

Lemma asciiOnly_upper_twice r :
  ToUpper asciiOnly (ToUpper asciiOnly r) = ToUpper asciiOnly r.
Proof.
  unfold ToUpper. destruct (isASCII r) eqn:Ha; simpl; [|by rewrite Ha].
  unfold isASCII, asciiToUpper, asciiLower, inRange in *.
  destruct ((97 <=? r)%Z && (r <=? 122)%Z) eqn:Hl.
  - assert (((0 <=? r - 32)%Z && (r - 32 <? 128)%Z) = true) as -> by lia.
    by assert (((97 <=? r - 32)%Z && (r - 32 <=? 122)%Z) = false) as -> by lia.
  - by rewrite Ha, Hl.
Qed.

Lemma asciiOnly_lower_twice r :
  ToLower asciiOnly (ToLower asciiOnly r) = ToLower asciiOnly r.
Proof.
  unfold ToLower. destruct (isASCII r) eqn:Ha; simpl; [|by rewrite Ha].
  unfold isASCII, asciiToLower, asciiUpper, inRange in *.
  destruct ((65 <=? r)%Z && (r <=? 90)%Z) eqn:Hu.
  - assert (((0 <=? r + 32)%Z && (r + 32 <? 128)%Z) = true) as -> by lia.
    by assert (((65 <=? r + 32)%Z && (r + 32 <=? 90)%Z) = false) as -> by lia.
  - by rewrite Ha, Hu.
Qed.


Lemma TitleCase_idempotent_witness :
  TitleCase asciiOnly (TitleCase asciiOnly (runes "  bank   INDONESIA raya "))
    = TitleCase asciiOnly (runes "  bank   INDONESIA raya ").
Proof.
  exact (TitleCase_idempotent asciiOnly (runes "  bank   INDONESIA raya ")
           asciiOnly_upper_ink asciiOnly_lower_ink
           asciiOnly_upper_twice asciiOnly_lower_twice).
Defined.

(** * What the regular-expression passes keep *)

Section Matcher.

Lemma matches_consumes re st m st' :
  matches re st m st' →
  m_rest st = m ++ m_rest st' ∧ m_pos st' = m_pos st + length m.
Proof.
  revert st m st'. induction re as [|p|a IHa b IHb|a IHa b IHb|p|n a IHa| |];
    simpl; intros st m st'.
  - intros [-> ->]. simpl. split; [done|lia].
  - intros (c & rest & _ & -> & Hr & ->). simpl. split; [done|lia].
  - intros (m1 & m2 & mid & -> & Ha & Hb).
    destruct (IHa _ _ _ Ha) as [Ha1 Ha2]. destruct (IHb _ _ _ Hb) as [Hb1 Hb2].
    split; [by rewrite Ha1, Hb1, app_assoc|]. rewrite length_app. lia.
  - intros [H|H]; [by apply IHa|by apply IHb].
  - by intros (_ & ? & ? & _).
  - intros (st1 & Ha & ->). simpl. by apply IHa.
  - intros (-> & _ & ->). simpl. split; [done|lia].
  - intros (-> & _ & ->). simpl. split; [done|lia].
Qed.

Lemma starLoop_sound p k caps rest prev pos r :
  starLoop p k caps rest prev pos = Some r →
  ∃ m st', Forall (λ c, p c = true) m ∧ rest = m ++ m_rest st' ∧
    m_pos st' = pos + length m ∧ m_caps st' = caps ∧ k st' = Some r.
Proof.
  revert prev pos. induction rest as [|c rest IH]; simpl; intros prev pos H.
  - exists [], {| m_prev := prev; m_rest := []; m_pos := pos; m_caps := caps |}.
    simpl. split; [constructor|]. split; [done|]. split; [lia|]. by split.
  - destruct (p c) eqn:Hp.
    + destruct (starLoop p k caps rest (Some c) (S pos)) as [r'|] eqn:Hs.
      * injection H as ->. destruct (IH _ _ Hs) as (m & st' & Hm & Hrest & Hpos & Hcaps & Hk).
        exists (c :: m), st'. split; [by constructor|]. simpl.
        split; [by rewrite Hrest|]. split; [lia|]. done.
      * exists [], {| m_prev := prev; m_rest := c :: rest; m_pos := pos; m_caps := caps |}.
        simpl. split; [constructor|]. split; [done|]. split; [lia|]. by split.
    + exists [], {| m_prev := prev; m_rest := c :: rest; m_pos := pos; m_caps := caps |}.
      simpl. split; [constructor|]. split; [done|]. split; [lia|]. by split.
Qed.

(** The matcher returns only matches. *)
Lemma rmatch_sound re st k r :
  rmatch re st k = Some r → ∃ m st', matches re st m st' ∧ k st' = Some r.
Proof.
  revert st k r. induction re as [|p|a IHa b IHb|a IHa b IHb|p|n a IHa| |];
    simpl; intros st k r H.
  - by exists [], st.
  - destruct (m_rest st) as [|c rest] eqn:Hr; [done|]. destruct (p c) eqn:Hp; [|done].
    eexists [c], _. split; [|exact H]. by exists c, rest.
  - destruct (IHa _ _ _ H) as (m1 & mid & Ha & Hk).
    destruct (IHb _ _ _ Hk) as (m2 & st' & Hb & Hk').
    exists (m1 ++ m2), st'. split; [|done]. by exists m1, m2, mid.
  - destruct (rmatch a st k) as [r'|] eqn:Ha.
    + injection H as ->. destruct (IHa _ _ _ Ha) as (m & st' & Hm & Hk).
      exists m, st'. split; [by left|done].
    + destruct (IHb _ _ _ H) as (m & st' & Hm & Hk). exists m, st'. split; [by right|done].
  - destruct (starLoop_sound _ _ _ _ _ _ _ H) as (m & st' & Hm & Hrest & Hpos & Hcaps & Hk).
    by exists m, st'.
  - destruct (IHa _ _ _ H) as (m & st1 & Ha & Hk).
    destruct (matches_consumes _ _ _ _ Ha) as [Hrest Hpos].
    eexists m, _. split; [exists st1; split; [done|reflexivity]|].
    assert (take (m_pos st1 - m_pos st) (m_rest st) = m) as Ht.
    { rewrite Hrest, Hpos.
      replace (m_pos st + length m - m_pos st) with (length m) by lia.
      apply take_app_length. }
    simpl in Hk. rewrite Ht in Hk. exact Hk.
  - destruct (m_pos st =? 0) eqn:H0; [|done]. apply Nat.eqb_eq in H0. by exists [], st.
  - destruct (atWordBoundary st) eqn:Hb; [|done]. by exists [], st.
Qed.

Variable f : rune → list rune.

Lemma view_app l k : view f (l ++ k) = view f l ++ view f k.
Proof. apply flat_map_app. Qed.

Lemma view_cons c l : view f (c :: l) = f c ++ view f l.
Proof. done. Qed.

Lemma view_silent_run (p : rune → bool) m :
  (∀ c, p c = true → f c = []) → Forall (λ c, p c = true) m → view f m = [].
Proof.
  intros Hp. induction 1 as [|c m Hc _ IH]; [done|]. by rewrite view_cons, (Hp c Hc), IH.
Qed.

(** A silent pattern consumes a text whose view is empty. *)
Lemma silent_consumed re st m st' : silent f re → matches re st m st' → view f m = [].
Proof.
  revert st m st'. induction re as [|p|a IHa b IHb|a IHa b IHb|p|n a IHa| |];
    simpl; intros st m st' Hs.
  - by intros [-> _].
  - intros (c & rest & Hp & -> & _). by rewrite view_cons, (Hs c Hp).
  - intros (m1 & m2 & mid & -> & Ha & Hb). destruct Hs as [Hsa Hsb].
    by rewrite view_app, (IHa _ _ _ Hsa Ha), (IHb _ _ _ Hsb Hb).
  - destruct Hs as [Hsa Hsb]. intros [H|H]; [by eapply IHa|by eapply IHb].
  - intros (Hm & _). by eapply view_silent_run.
  - intros (st1 & Ha & _). by eapply IHa.
  - by intros (-> & _).
  - by intros (-> & _).
Qed.

(** A pass keeps the view of the text if each replacement keeps the view of
    the text it replaces. *)
Lemma replaceLoop_keeps re repl :
  (∀ st m st', m_caps st = [] → matches re st m st' →
     view f (repl m (group (m_caps st'))) = view f m) →
  ∀ rest skip prev pos,
    view f (replaceLoop re repl skip prev pos rest) = view f (drop skip rest).
Proof.
  intros Hrepl. induction rest as [|c rest IH]; intros skip prev pos.
  - by destruct skip.
  - destruct skip as [|skip]; [|apply IH]. cbn [replaceLoop].
    change (drop 0 (c :: rest)) with (c :: rest).
    destruct (rmatch re _ Some) as [st'|] eqn:Hm.
    2:{ rewrite !view_cons. specialize (IH 0 (Some c) (S pos)). by rewrite IH. }
    destruct (rmatch_sound _ _ _ _ Hm) as (m & st'' & Hmat & [= ->]).
    destruct (matches_consumes _ _ _ _ Hmat) as [Hrest Hpos]. simpl in Hrest, Hpos.
    rewrite Hpos. replace (pos + length m - pos) with (length m) by lia.
    destruct m as [|c0 m]; cbn [length].
    { rewrite !view_cons. specialize (IH 0 (Some c) (S pos)). by rewrite IH. }
    injection Hrest as <- Hrest.
    change (take (S (length m)) (c :: rest)) with (c :: take (length m) rest).
    rewrite view_app, IH, Hrest, take_app_length, drop_app_length.
    rewrite (Hrepl {| m_prev := prev; m_rest := c :: rest; m_pos := pos; m_caps := [] |}
               (c :: m) st' eq_refl Hmat).
    rewrite <-view_app. done.
Qed.

Lemma ReplaceAllString_keeps re tmpl s :
  (∀ st m st', m_caps st = [] → matches re st m st' →
     view f (expand tmpl (group (m_caps st'))) = view f m) →
  view f (ReplaceAllString re s tmpl) = view f s.
Proof.
  intros H. unfold ReplaceAllString.
  by rewrite (replaceLoop_keeps re (λ _ g, expand tmpl g) H s 0 None 0).
Qed.

Lemma ReplaceAllStringFunc_keeps re g s :
  (∀ m, view f (g m) = view f m) →
  view f (ReplaceAllStringFunc re s g) = view f s.
Proof.
  intros H. unfold ReplaceAllStringFunc.
  by rewrite (replaceLoop_keeps re (λ m _, g m) (λ _ m _ _ _, H m) s 0 None 0).
Qed.

(** A silent pattern replaced by a text whose view is empty. *)
Lemma replace_literal_keeps re t s :
  silent f re → view f t = [] → view f (ReplaceAllString re s [Lit t]) = view f s.
Proof.
  intros Hs Ht. apply ReplaceAllString_keeps. intros st m st' _ Hm.
  simpl. rewrite app_nil_r, Ht. symmetry. by eapply silent_consumed.
Qed.

End Matcher.

Ltac eval_runes :=
  repeat match goal with
         | |- context [runes ?s] =>
             let v := eval vm_compute in (runes s) in change (runes s) with v
         | H : context [runes ?s] |- _ =>
             let v := eval vm_compute in (runes s) in change (runes s) with v in H
         end.

Ltac open_matches :=
  repeat match goal with
         | H : ∃ _, _ |- _ => destruct H
         | H : _ ∧ _ |- _ => destruct H
         | H : _ ∨ _ |- _ => destruct H
         end;
  simplify_eq/=.

Section Passes.

Variable f : rune → list rune.

(** The view leaves white space out. *)
Hypothesis f_ws : ∀ c, isWS c = true → f c = [].

Lemma view_ws_run m : Forall (λ c, isWS c = true) m → view f m = [].
Proof. by apply view_silent_run. Qed.

Lemma silent_plus_ws : silent f (plus isWS).
Proof. by split. Qed.

Local Ltac drop_ws :=
  rewrite ?view_app, ?view_cons;
  repeat match goal with
         | H : isWS ?c = true |- context [f ?c] => rewrite (f_ws c H)
         | H : Forall (λ c, isWS c = true) ?m |- context [view f ?m] =>
             rewrite (view_ws_run m H)
         end;
  rewrite ?app_nil_r; simpl; rewrite ?app_nil_r.

Lemma reMultiWS_keeps s : view f (ReplaceAllString reMultiWS s [Lit (runes " ")]) = view f s.
Proof.
  apply replace_literal_keeps; [apply silent_plus_ws|].
  change (runes " ") with [32%Z]. rewrite view_cons, (f_ws 32%Z eq_refl). done.
Qed.

Lemma reSpaceBeforePunct_keeps s :
  view f (ReplaceAllString reSpaceBeforePunct s [Ref 1]) = view f s.
Proof.
  apply ReplaceAllString_keeps. intros st m st' Hc Hm.
  unfold reSpaceBeforePunct, plus in Hm. simpl in Hm. open_matches.
  by drop_ws.
Qed.

(** [normalizeSpaces] keeps every view that leaves white
    space out. *)
Lemma normalizeSpaces_keeps s : view f (normalizeSpaces s) = view f s.
Proof. unfold normalizeSpaces. by rewrite reSpaceBeforePunct_keeps, reMultiWS_keeps. Qed.

Section Punctuation.

(** The view also leaves out the full stop and the ellipsis sign. *)
Hypothesis f_dot : f 46%Z = [].
Hypothesis f_ell : f 8230%Z = [].

Local Ltac same_view :=
  open_matches;
  repeat match goal with
         | H : (_ =? _)%Z = true |- _ => apply Z.eqb_eq in H; subst
         end;
  repeat match goal with
         | H : m_caps ?x = _ |- context [m_caps ?x] => rewrite H; simpl
         end;
  drop_ws; rewrite ?f_dot, ?f_ell, ?(f_ws 32%Z eq_refl); simpl; rewrite ?app_nil_r;
  try done.

Local Ltac by_groups re :=
  apply ReplaceAllString_keeps; intros st m st' Hc Hm;
  unfold re, plus, opt, dot, isRune in Hm; eval_runes; simpl in Hm; same_view.

Lemma silent_dot : silent f dot.
Proof. intros c H. apply Z.eqb_eq in H. by subst. Qed.

Lemma reMultiDots_keeps s :
  view f (ReplaceAllString reMultiDots s [Lit (runes "...")]) = view f s.
Proof.
  apply replace_literal_keeps.
  - split.
    + repeat split; apply silent_dot.
    + intros c H. apply Z.eqb_eq in H. by subst.
  - eval_runes. by rewrite !view_cons, f_dot.
Qed.

Lemma reEllipsisNoLeftSp_keeps s :
  view f (ReplaceAllString reEllipsisNoLeftSp s [Ref 1; Lit (runes " ...")]) = view f s.
Proof. by_groups reEllipsisNoLeftSp. Qed.

Lemma reEllipsisNoRightSp_keeps s :
  view f (ReplaceAllString reEllipsisNoRightSp s [Lit (runes "... "); Ref 1]) = view f s.
Proof. by_groups reEllipsisNoRightSp. Qed.

Lemma reCommaSemiColonEtcSpace_keeps s :
  view f (ReplaceAllString reCommaSemiColonEtcSpace s [Ref 1; Lit (runes " "); Ref 2])
  = view f s.
Proof. by_groups reCommaSemiColonEtcSpace. Qed.

Lemma reDotSentenceSpace_keeps s :
  view f (ReplaceAllString reDotSentenceSpace s [Ref 1; Lit (runes ". "); Ref 2])
  = view f s.
Proof. by_groups reDotSentenceSpace. Qed.

Lemma reOpenParenSpaces_keeps s :
  view f (ReplaceAllString reOpenParenSpaces s [Lit (runes "(")]) = view f s.
Proof. by_groups reOpenParenSpaces. Qed.

Lemma reCloseParenSpaces_keeps s :
  view f (ReplaceAllString reCloseParenSpaces s [Lit (runes ")")]) = view f s.
Proof. by_groups reCloseParenSpaces. Qed.

Lemma reSpaceBeforeCloseQuote_keeps s :
  view f (ReplaceAllString reSpaceBeforeCloseQuote s [Ref 1]) = view f s.
Proof. by_groups reSpaceBeforeCloseQuote. Qed.

Lemma reSpaceAfterOpenQuote_keeps s :
  view f (ReplaceAllString reSpaceAfterOpenQuote s [Ref 1]) = view f s.
Proof. by_groups reSpaceAfterOpenQuote. Qed.

Lemma reDashTighten_keeps s :
  view f (ReplaceAllString reDashTighten s [Lit [8212%Z]]) = view f s.
Proof. by_groups reDashTighten. Qed.

Lemma fixPunctuationSpacing_keeps s : view f (fixPunctuationSpacing s) = view f s.
Proof.
  unfold fixPunctuationSpacing.
  rewrite reMultiWS_keeps, reDashTighten_keeps, reSpaceAfterOpenQuote_keeps,
    reSpaceBeforeCloseQuote_keeps, reCloseParenSpaces_keeps, reOpenParenSpaces_keeps,
    reDotSentenceSpace_keeps, reCommaSemiColonEtcSpace_keeps, reEllipsisNoRightSp_keeps,
    reEllipsisNoLeftSp_keeps, reMultiDots_keeps, reSpaceBeforePunct_keeps.
  done.
Qed.

End Punctuation.

(** A literal pattern consumes its own text. *)
Lemma matches_lit t st m st' : matches (lit t) st m st' → m = t.
Proof.
  unfold lit. revert st m st'. induction t as [|c t IH]; simpl; intros st m st'.
  - by intros [-> _].
  - destruct t as [|c' t].
    + simpl. intros (x & rest & Hx & -> & _). apply Z.eqb_eq in Hx. by subst.
    + change (seqOf (Char (isRune c) :: map (λ c, Char (isRune c)) (c' :: t)))
        with (Seq (Char (isRune c)) (seqOf (map (λ c, Char (isRune c)) (c' :: t)))).
      simpl. intros (m1 & m2 & mid & -> & (x & rest & Hx & -> & _) & Hm).
      apply Z.eqb_eq in Hx. subst. f_equal. by eapply IH.
Qed.

Lemma splitPrefix_keeps prefix s w : view f (splitPrefix prefix s w) = view f s.
Proof.
  unfold splitPrefix. apply ReplaceAllString_keeps. intros st m st' _ Hm.
  simpl in Hm. destruct Hm as (m1 & m2 & mid & -> & (-> & _ & ->) & Hm).
  destruct Hm as (m3 & m4 & mid' & -> & Hlit & (-> & _)).
  apply matches_lit in Hlit as ->. simpl.
  rewrite !app_nil_r, !view_app, view_cons, (f_ws 32%Z eq_refl). done.
Qed.

Lemma splitDiKe_keeps l s : view f (fold_left splitDiKe l s) = view f s.
Proof.
  revert s. induction l as [|w l IH]; simpl; intros s; [done|].
  rewrite IH. unfold splitDiKe. by rewrite !splitPrefix_keeps.
Qed.

Lemma splitDi_keeps l s : view f (fold_left (splitPrefix (runes "di")) l s) = view f s.
Proof.
  revert s. induction l as [|w l IH]; simpl; intros s; [done|].
  by rewrite IH, splitPrefix_keeps.
Qed.

Section Letters.

(** The view does not tell the two cases of D and K apart. *)
Hypothesis f_D : f 68%Z = f 100%Z.
Hypothesis f_K : f 75%Z = f 107%Z.

Lemma kepada_keeps s :
  view f (ReplaceAllString
            (seqOf [WordBoundary; Char (oneOf (runes "Kk")); lit (runes "e pada");
                    WordBoundary]) s [Lit (runes "kepada")]) = view f s.
Proof.
  apply ReplaceAllString_keeps. intros st m st' _ Hm.
  simpl in Hm. destruct Hm as (m1 & m2 & mid & -> & (-> & _ & ->) & Hm).
  destruct Hm as (m3 & m4 & mid' & -> & (c & rest & Hc & -> & _) & Hm).
  destruct Hm as (m5 & m6 & mid'' & -> & Hlit & (-> & _)).
  apply (matches_lit (runes "e pada")) in Hlit as ->. eval_runes.
  assert (f c = f 107%Z) as Hf.
  { apply orb_true_iff in Hc as [Hc|Hc]; [|apply orb_true_iff in Hc as [Hc|Hc]; [|done]];
      apply Z.eqb_eq in Hc; subst c; [exact f_K|reflexivity]. }
  simpl. rewrite Hf, (f_ws 32%Z eq_refl). by rewrite !app_nil_r.
Qed.

Lemma daripada_keeps s :
  view f (ReplaceAllString
            (seqOf [WordBoundary; Char (oneOf (runes "Dd")); lit (runes "ari pada");
                    WordBoundary]) s [Lit (runes "daripada")]) = view f s.
Proof.
  apply ReplaceAllString_keeps. intros st m st' _ Hm.
  simpl in Hm. destruct Hm as (m1 & m2 & mid & -> & (-> & _ & ->) & Hm).
  destruct Hm as (m3 & m4 & mid' & -> & (c & rest & Hc & -> & _) & Hm).
  destruct Hm as (m5 & m6 & mid'' & -> & Hlit & (-> & _)).
  apply (matches_lit (runes "ari pada")) in Hlit as ->. eval_runes.
  assert (f c = f 100%Z) as Hf.
  { apply orb_true_iff in Hc as [Hc|Hc]; [|apply orb_true_iff in Hc as [Hc|Hc]; [|done]];
      apply Z.eqb_eq in Hc; subst c; [exact f_D|reflexivity]. }
  simpl. rewrite Hf, (f_ws 32%Z eq_refl). by rewrite !app_nil_r.
Qed.

Lemma fixCommonPrepositions_keeps s : view f (fixCommonPrepositions s) = view f s.
Proof.
  unfold fixCommonPrepositions.
  by rewrite splitDi_keeps, daripada_keeps, kepada_keeps, !splitDiKe_keeps.
Qed.

End Letters.

End Passes.

(** * What the whole pipeline keeps *)

Section Pointwise.

Variable f : rune → list rune.

Lemma view_pointwise s s' : Forall2 (λ r r', f r' = f r) s s' → view f s' = view f s.
Proof.
  induction 1 as [|r r' s s' H _ IH]; [done|]. by rewrite !view_cons, H, IH.
Qed.

Lemma view_alter g i r :
  (∀ c, r !! i = Some c → f (g c) = f c) → view f (alter g i r) = view f r.
Proof.
  revert i. induction r as [|c r IH]; intros [|i] H; try done.
  - change (alter g 0 (c :: r)) with (g c :: r). by rewrite !view_cons, (H c eq_refl).
  - change (alter g (S i) (c :: r)) with (c :: alter g i r).
    rewrite !view_cons. f_equal. apply IH. intros c' Hc'. by apply H.
Qed.

Lemma view_concat_map g l :
  Forall (λ t, view f (g t) = view f t) l → view f (concat (map g l)) = view f (concat l).
Proof.
  induction 1 as [|t l H _ IH]; [done|]. simpl. by rewrite !view_app, H, IH.
Qed.

Lemma view_joinSpace l : f 32%Z = [] → view f (joinSpace l) = view f (concat l).
Proof.
  intros H. induction l as [|t l IH]; [done|]. destruct l as [|u l].
  - simpl. by rewrite app_nil_r.
  - change (joinSpace (t :: u :: l)) with (t ++ 32%Z :: joinSpace (u :: l)).
    change (concat (t :: u :: l)) with (t ++ concat (u :: l)).
    by rewrite !view_app, view_cons, H, IH.
Qed.

Lemma splitAtSpace_Some l a b : splitAtSpace l = Some (a, b) → l = a ++ 32%Z :: b.
Proof.
  revert a. induction l as [|r l IH]; simpl; intros a H; [done|].
  destruct (r =? 32)%Z eqn:Hr.
  - apply Z.eqb_eq in Hr. by simplify_eq.
  - destruct (splitAtSpace l) as [[a' b']|]; [|done]. simplify_eq. simpl.
    f_equal. by apply IH.
Qed.

End Pointwise.

Section Marks.

Variable X : UnicodeExt.

(** What holds of the case tables of Unicode: both case forms of a letter
    are letters. *)
Hypothesis upper_letter : ∀ r, IsLetter X r = true → IsLetter X (ToUpper X r) = true.
Hypothesis lower_letter : ∀ r, IsLetter X r = true → IsLetter X (ToLower X r) = true.

Lemma marks_letter c : IsLetter X c = true → marks X c = [].
Proof. unfold marks. by intros ->. Qed.

Lemma marks_space c : IsSpace X c = true → marks X c = [].
Proof. unfold marks. intros ->. by rewrite orb_true_r. Qed.

Lemma marks_sign c : oneOf [45; 46; 383; 8230]%Z c = true → marks X c = [].
Proof. unfold marks. intros ->. by rewrite !orb_true_r. Qed.

Lemma marks_ws c : isWS c = true → marks X c = [].
Proof.
  intros H. apply marks_space. unfold isWS in H.
  repeat (apply orb_true_iff in H as [H|H]); apply Z.eqb_eq in H; by subst c.
Qed.

Lemma marks_cased c :
  (IsLetter X c || (c =? 39)%Z || (c =? 45)%Z) = true →
  marks X (ToUpper X c) = marks X c ∧ marks X (ToLower X c) = marks X c.
Proof.
  destruct (IsLetter X c) eqn:HL; simpl; intros H.
  - by rewrite !marks_letter by auto.
  - apply orb_true_iff in H as [H|H]; apply Z.eqb_eq in H; by subst c.
Qed.

Lemma fieldsLoop_marks cur l :
  view (marks X) (concat (fieldsLoop X cur l)) = view (marks X) cur ++ view (marks X) l.
Proof.
  revert cur. induction l as [|r l IH]; intros cur.
  - destruct cur; simpl; by rewrite ?app_nil_r.
  - cbn [fieldsLoop]. rewrite view_cons. destruct (IsSpace X r) eqn:Hr.
    + rewrite (marks_space r Hr). destruct cur as [|c cur]; [by rewrite IH|].
      change (concat ((c :: cur) :: fieldsLoop X [] l))
        with ((c :: cur) ++ concat (fieldsLoop X [] l)).
      by rewrite view_app, IH.
    + rewrite IH, view_app, view_cons. change (view (marks X) []) with (@nil rune).
      by rewrite app_nil_r, <-app_assoc.
Qed.

Lemma titleWord_marks t : allLetter X t = true → view (marks X) (titleWord X t) = view (marks X) t.
Proof.
  unfold allLetter. intros H. apply view_pointwise.
  destruct t as [|r t]; [constructor|]. simpl in H. apply andb_true_iff in H as [Hr Ht].
  simpl. constructor; [by apply marks_cased|].
  induction t as [|c t IH]; simpl; [constructor|].
  simpl in Ht. apply andb_true_iff in Ht as [Hc Ht].
  constructor; [by apply marks_cased|by apply IH].
Qed.

Lemma greetingName_marks m : view (marks X) (greetingName X m) = view (marks X) m.
Proof.
  unfold greetingName. destruct (splitAtSpace m) as [[hd rest]|] eqn:Hs; [|done].
  apply splitAtSpace_Some in Hs as ->.
  destruct (Fields X rest) as [|t0 ts] eqn:HF; [done|]. rewrite <-HF.
  set (limit := if 4 <? length (Fields X rest) then 4 else length (Fields X rest)).
  assert (marks X 32%Z = []) as H32 by done.
  rewrite !view_app, !view_cons. do 2 f_equal.
  rewrite view_joinSpace by done. rewrite concat_app, view_app.
  rewrite view_concat_map.
  - rewrite <-view_app, <-concat_app, take_drop. unfold Fields.
    by rewrite fieldsLoop_marks.
  - apply Forall_forall. intros t _. destruct (allLetter X t) eqn:Ht; [|done].
    by apply titleWord_marks.
Qed.

Lemma upperAt_marks r k :
  view (marks X) (upperAt X r (firstLetterIndex X r k)) = view (marks X) r.
Proof.
  destruct (firstLetterIndex X r k) as [i|] eqn:E; simpl; [|done].
  apply view_alter. intros c Hc.
  destruct (firstLetterIndex_letter X r k i E) as (c' & Hc' & HL).
  assert (c' = c) as -> by congruence. by rewrite !marks_letter by auto.
Qed.

Lemma capLoop_marks todo idx r : view (marks X) (capLoop X todo idx r) = view (marks X) r.
Proof.
  revert idx r. induction todo as [|todo IH]; intros idx r; simpl; [done|].
  rewrite IH. destruct (from_option isSentenceEnd false (r !! idx)); [|done].
  apply upperAt_marks.
Qed.

Lemma capitalizeSentences_marks s :
  view (marks X) (capitalizeSentences X s) = view (marks X) s.
Proof. unfold capitalizeSentences. by rewrite capLoop_marks, upperAt_marks. Qed.

Lemma decapitalize_marks exceptions heads s :
  view (marks X) (decapitalizeMidSentence X exceptions heads s) = view (marks X) s.
Proof.
  apply view_pointwise, Forall2_same_length_lookup.
  split; [by rewrite decap_length|]. intros t r r' Hr Hr'.
  destruct (decap_runes X exceptions heads s t r Hr) as (r2 & Hr2 & Hk).
  assert (r2 = r') as -> by congruence.
  destruct Hk as [->|[HL ->]]; [done|]. by rewrite !marks_letter by auto.
Qed.

Lemma TrimSpace_marks s : view (marks X) (TrimSpace X s) = view (marks X) s.
Proof.
  destruct (TrimSpace_spec X s) as (a & b & Hs & Ha & Hb). rewrite Hs at 2.
  rewrite !view_app.
  rewrite (view_silent_run (marks X) (IsSpace X) a marks_space Ha).
  rewrite (view_silent_run (marks X) (IsSpace X) b marks_space Hb).
  by rewrite app_nil_r.
Qed.

(** The runes a folded letter of the patterns can stand for. *)
Local Ltac fold_case H :=
  unfold foldEq, oneOf, isRune in H; simpl in H;
  repeat (apply orb_true_iff in H as [H|H]);
  try (apply andb_true_iff in H as [? H]);
  try discriminate;
  apply Z.eqb_eq in H; subst;
  first [reflexivity | apply marks_sign; reflexivity].

Local Ltac hush :=
  repeat split;
  let c := fresh "c" in let H := fresh "H" in
  intros c H; first [by apply marks_ws | fold_case H].

Lemma normalizeRealTime_marks s : view (marks X) (normalizeRealTime s) = view (marks X) s.
Proof.
  unfold normalizeRealTime.
  rewrite replace_literal_keeps; [|unfold reTransferRealTime, litCI, plus; eval_runes; hush|done].
  rewrite replace_literal_keeps; [done| |done].
  unfold reRealTimeGeneric, litCI, opt; eval_runes; hush.
Qed.

Lemma fold_r c : foldEq 114%Z c = true → marks X c = [].
Proof. intros H. fold_case H. Qed.

Lemma fold_p c : foldEq 112%Z c = true → marks X c = [].
Proof. intros H. fold_case H. Qed.

Local Ltac rupiah re :=
  apply ReplaceAllString_keeps; intros st m st' Hc Hm;
  unfold re, litCI, plus, opt, dot, isRune in Hm; eval_runes; simpl in Hm;
  open_matches;
  repeat match goal with
         | H : (_ =? _)%Z = true |- _ => apply Z.eqb_eq in H; subst
         end;
  rewrite ?view_app, ?view_cons;
  repeat match goal with
         | H : foldEq 114%Z ?c = true |- context [marks X ?c] => rewrite (fold_r c H)
         | H : foldEq 112%Z ?c = true |- context [marks X ?c] => rewrite (fold_p c H)
         | H : isWS ?c = true |- context [marks X ?c] => rewrite (marks_ws c H)
         | H : Forall (λ c, isWS c = true) ?m |- context [view (marks X) ?m] =>
             rewrite (view_silent_run (marks X) isWS m marks_ws H)
         end;
  try done.

Lemma fixIDRCurrency_marks s : view (marks X) (fixIDRCurrency s) = view (marks X) s.
Proof.
  unfold fixIDRCurrency.
  assert (∀ t, view (marks X) (ReplaceAllString reRpNoSpace t [Lit (runes "Rp"); Ref 1])
               = view (marks X) t) as ->.
  { intros t. rupiah reRpNoSpace. }
  rupiah reRpNumber.
Qed.

Lemma sanitize_marks s : view (marks X) (SanitizeToPUEBI X s) = view (marks X) s.
Proof.
  unfold SanitizeToPUEBI. destruct (TrimSpace X s); [done|].
  rewrite TrimSpace_marks, fixIDRCurrency_marks, decapitalize_marks.
  unfold fixGreetingNameCase.
  rewrite (ReplaceAllStringFunc_keeps (marks X) reGreeting _ _ greetingName_marks).
  rewrite capitalizeSentences_marks, normalizeRealTime_marks.
  rewrite (fixCommonPrepositions_keeps (marks X) marks_ws eq_refl eq_refl).
  rewrite (fixPunctuationSpacing_keeps (marks X) marks_ws eq_refl
             (marks_sign 8230%Z eq_refl)).
  by rewrite (normalizeSpaces_keeps (marks X) marks_ws).
Qed.

End Marks.

(** X18: [normalizeSpaces] writes and removes white space only: the runes of
    the output that are not white space are those of the input, in order. *)
Theorem normalizeSpaces_keeps_ink s :
  view inkOnly (normalizeSpaces s) = view inkOnly s.
Proof.
  apply normalizeSpaces_keeps. intros c Hc. unfold inkOnly. by rewrite Hc.
Qed.

(** X19: [fixPunctuationSpacing] writes and removes only white space, full
    stops and the ellipsis sign: every other rune of the input is in the
    output, in the same order, and nothing else is. *)
Theorem fixPunctuationSpacing_keeps_text s :
  view plainInk (fixPunctuationSpacing s) = view plainInk s.
Proof.
  apply fixPunctuationSpacing_keeps; [|done..].
  intros c Hc. unfold plainInk. by rewrite Hc.
Qed.

(** X20: [fixCommonPrepositions] changes white space and the case of ASCII
    letters only: without its white space and with the ASCII letters in
    lower case, the output is the input. *)
Theorem fixCommonPrepositions_keeps_letters s :
  view foldedInk (fixCommonPrepositions s) = view foldedInk s.
Proof.
  apply fixCommonPrepositions_keeps; [|done..].
  intros c Hc. unfold foldedInk. by rewrite Hc.
Qed.


(** X22: what the whole pipeline keeps.  The runes of [SanitizeToPUEBI s]
    that are not letters, white space, hyphens, full stops, the long s or
    the ellipsis sign are those of [s], in the same order: every digit,
    comma, bracket, quote and other sign of the input reaches the output
    and none is added.  The two hypotheses hold of the case tables of
    Unicode: both case forms of a letter are letters. *)
Theorem sanitize_keeps_marks X s :
  (∀ r, IsLetter X r = true → IsLetter X (ToUpper X r) = true) →
  (∀ r, IsLetter X r = true → IsLetter X (ToLower X r) = true) →
  view (marks X) (SanitizeToPUEBI X s) = view (marks X) s.
Proof. intros H1 H2. by apply sanitize_marks. Qed.

Lemma sanitize_keeps_marks_witness :
  view (marks asciiOnly) (SanitizeToPUEBI asciiOnly demo) = view (marks asciiOnly) demo.
Proof.
  apply sanitize_keeps_marks; [apply asciiOnly_upper_letter|apply asciiOnly_lower_letter].
Defined.
